(** * Sprint-plan reporter: markdown parser and HTML renderer

    A shallow embedding of [scripts/generate_sprint_report.py]:
    [parse_markdown] (a single forward scan driven by four regular
    expressions) and [generate_html_report] (string templating with
    per-microversion and per-sprint progress figures).

    Python strings are sequences of Unicode code points, so a [str] is a
    list of code points.  The four patterns are kept as regular
    expression syntax trees and run by a backtracking matcher with the
    priorities of Python's [re] module.  A [float] is a binary64 number
    kept as its exact rational value.

    The embedding comes first, then the vocabulary of the statements,
    then the facts: about the matcher, the patterns, the scan and the
    numbers, and the parser and the renderer against their
    specification. *)

From Stdlib Require Import String Ascii DecimalString.
From Stdlib Require Import List Bool Arith NArith ZArith QArith Qround Qabs Lia.
Import ListNotations.
Close Scope Q_scope.

Set Implicit Arguments.

(* ================================================================== *)
(** ** Strings of code points *)

Module Str.

Definition char := N.
Definition str := list char.

(** An ASCII literal of the source, as code points. *)
Fixpoint lit (s : string) : str :=
  match s with
  | EmptyString => []
  | String a s' => N_of_ascii a :: lit s'
  end.

Definition eqb (a b : str) : bool :=
  if list_eq_dec N.eq_dec a b then true else false.

Fixpoint starts_with (p s : str) : bool :=
  match p, s with
  | [], _ => true
  | a :: p', b :: s' => N.eqb a b && starts_with p' s'
  | _ :: _, [] => false
  end.

Fixpoint drop_while (f : char -> bool) (s : str) : str :=
  match s with
  | [] => []
  | c :: s' => if f c then drop_while f s' else s
  end.

Definition in_range (lo hi c : N) : bool := N.leb lo c && N.leb c hi.

(** The characters [str.strip()] removes: those for which
    [str.isspace] holds. *)
Definition is_space (c : char) : bool :=
  in_range 9 13 c || in_range 28 32 c || N.eqb c 133 || N.eqb c 160
  || N.eqb c 5760 || in_range 8192 8202 c || N.eqb c 8232 || N.eqb c 8233
  || N.eqb c 8239 || N.eqb c 8287 || N.eqb c 12288.

(** [s.strip()] *)
Definition strip (s : str) : str :=
  rev (drop_while is_space (rev (drop_while is_space s))).

(** The characters at which [str.splitlines] cuts; carriage return (13)
    followed by line feed (10) counts as one boundary. *)
Definition is_linebreak (c : char) : bool :=
  in_range 10 13 c || in_range 28 30 c || N.eqb c 133
  || N.eqb c 8232 || N.eqb c 8233.

Fixpoint splitlines_from (cur : str) (s : str) : list str :=
  match s with
  | [] => match cur with [] => [] | _ => [rev cur] end
  | c :: s' =>
      if N.eqb c 13 then
        match s' with
        | c' :: s'' =>
            if N.eqb c' 10 then rev cur :: splitlines_from [] s''
            else rev cur :: splitlines_from [] s'
        | [] => rev cur :: splitlines_from [] s'
        end
      else if is_linebreak c then rev cur :: splitlines_from [] s'
      else splitlines_from (c :: cur) s'
  end.

(** [s.splitlines()] *)
Definition splitlines (s : str) : list str := splitlines_from [] s.

(** [str(n)] for a non-negative int. *)
Definition of_nat (n : nat) : str :=
  lit (NilZero.string_of_uint (Nat.to_uint n)).

End Str.

Import Str.

(* ================================================================== *)
(** ** Regular expressions and backtracking matching *)

Module Re.

Inductive regex : Type :=
| Eps                                   (* the empty pattern *)
| Sym (p : char -> bool)                (* one character of a class *)
| Cat (r1 r2 : regex)                   (* r1 r2 *)
| Alt (r1 r2 : regex)                   (* r1|r2, left alternative first *)
| Rep (greedy : bool) (r : regex)       (* r* when greedy, r*? otherwise *)
| Grp (i : nat) (r : regex)             (* capturing group number i *)
| Eos.                                  (* $ *)

(** The groups of a match object: [None] for a group that did not
    take part in the match. *)
Definition captures := nat -> option str.

Definition no_captures : captures := fun _ => None.

Definition set_group (i : nat) (v : str) (g : captures) : captures :=
  fun j => if Nat.eqb j i then Some v else g j.

Definition or_else {A} (a b : option A) : option A :=
  match a with Some _ => a | None => b end.

(** The repetitions of a star whose body is matched by [body]: at most
    [fuel] of them, each consuming at least one character.  A greedy
    star tries one more repetition before stopping, a lazy one tries to
    stop first. *)
Fixpoint rep_loop
    (body : str -> captures -> (str -> captures -> option captures)
            -> option captures)
    (greedy : bool) (k : str -> captures -> option captures)
    (fuel : nat) (s : str) (g : captures) {struct fuel} : option captures :=
  match fuel with
  | O => k s g
  | S fuel' =>
      let more :=
        body s g (fun s' g' =>
          if Nat.ltb (length s') (length s)
          then rep_loop body greedy k fuel' s' g'
          else None) in
      if greedy then or_else more (k s g) else or_else (k s g) more
  end.

(** [run r s g k]: match [r] at the front of [s], then hand the rest of
    the input and the groups to the continuation [k].  The first
    success in priority order wins, as in a backtracking matcher: the
    left alternative before the right one, and the order of [rep_loop]
    for a star.  The length of the input bounds the repetitions of a
    star, since each consumes a character. *)
Fixpoint run (r : regex) (s : str) (g : captures)
             (k : str -> captures -> option captures) {struct r}
  : option captures :=
  match r with
  | Eps => k s g
  | Sym p =>
      match s with
      | c :: s' => if p c then k s' g else None
      | [] => None
      end
  | Cat r1 r2 => run r1 s g (fun s' g' => run r2 s' g' k)
  | Alt r1 r2 => or_else (run r1 s g k) (run r2 s g k)
  | Rep greedy r1 => rep_loop (run r1) greedy k (length s) s g
  | Grp i r1 =>
      run r1 s g (fun s' g' =>
        k s' (set_group i (firstn (length s - length s') s) g'))
  | Eos =>
      match s with
      | [] => k s g
      | [c] => if N.eqb c 10 then k s g else None
      | _ => None
      end
  end.

(** [re.match(r, s)]: the match is anchored at the start of [s] and may
    end anywhere. *)
Definition re_match (r : regex) (s : str) : option captures :=
  run r s no_captures (fun _ g => Some g).

(** [m.group(i)] of a group that took part. *)
Definition group (m : captures) (i : nat) : str :=
  match m i with Some v => v | None => [] end.

(** *** Pattern syntax *)

Definition chr (c : char) : regex := Sym (N.eqb c).

(** A literal string. *)
Fixpoint text (s : str) : regex :=
  match s with
  | [] => Eps
  | c :: s' => Cat (chr c) (text s')
  end.

(** [.]: any character but the line feed. *)
Definition any : regex := Sym (fun c => negb (N.eqb c 10)).

Definition plus (r : regex) : regex := Cat r (Rep true r).    (* r+ *)
Definition star (r : regex) : regex := Rep true r.            (* r* *)
Definition lazy_star (r : regex) : regex := Rep false r.      (* r*? *)
Definition opt (r : regex) : regex := Alt r Eps.              (* r? *)

(** The first code point of each decade of Unicode decimal digits
    (general category Nd, Unicode 14). *)
Definition decimal_zeros : list N :=
  [48; 1632; 1776; 1984; 2406; 2534; 2662; 2790; 2918; 3046; 3174; 3302;
   3430; 3558; 3664; 3792; 3872; 4160; 4240; 6112; 6160; 6470; 6608; 6784;
   6800; 6992; 7088; 7232; 7248; 42528; 43216; 43264; 43472; 43504; 43600;
   44016; 65296; 66720; 68912; 69734; 69872; 69942; 70096; 70384; 70736;
   70864; 71248; 71360; 71472; 71904; 72016; 72784; 73040; 73120; 92768;
   92864; 93008; 120782; 120792; 120802; 120812; 120822; 123200; 123632;
   125264; 130032]%N.

(** [\d] on a [str] pattern: any Unicode decimal digit. *)
Definition is_digit (c : char) : bool :=
  existsb (fun z => in_range z (z + 9) c) decimal_zeros.

Definition digit : regex := Sym is_digit.                     (* \d *)
Definition upper : regex := Sym (in_range 65 90).             (* [A-Z] *)
Definition lower : regex := Sym (in_range 97 122).            (* [a-z] *)

End Re.

Import Re.

(* ================================================================== *)
(** ** The document model *)

Inductive Status : Type := Complete | Open.

(** The task dict: keys "id", "description", "status". *)
Record Task : Type := {
  task_id : str;
  task_description : str;
  task_status : Status
}.

(** The microversion dict: keys "title", "tasks". *)
Record Microversion : Type := {
  mv_title : str;
  mv_tasks : list Task
}.

(** The sprint dict (epics share it): keys "title", "microversions".
    The renderer also asks for a key "tasks", which the parser never
    sets; [sprint_tasks] is [None] when the key is absent. *)
Record Sprint : Type := {
  sprint_title : str;
  sprint_microversions : list Microversion;
  sprint_tasks : option (list Task)
}.

(* ================================================================== *)
(** ** The parser: [parse_markdown] *)

Module Parser.

Declare Scope regex_scope.
Delimit Scope regex_scope with re.
Infix "+++" := Cat (at level 60, right associativity) : regex_scope.
Infix "<|>" := Alt (at level 70, right associativity) : regex_scope.

Local Open Scope string_scope.
Local Open Scope regex_scope.

(** A literal of a pattern. *)
Definition txt (s : string) : regex := text (lit s).

(** The source text of the four patterns, and below each its syntax
    tree.  The leading anchor matches only at the start of the line,
    which is where [re.match] begins. *)
Definition epic_pattern : string := "^## (Epic \d+:.*)$".

Definition epic_re : regex :=
  txt "## " +++ Grp 1 (txt "Epic " +++ plus digit +++ txt ":" +++ star any) +++ Eos.

Definition sprint_pattern : string :=
  "^### \*\*(Sprint \d+:.*?)(?:\(.*?\))?\*\*[:]?$".

Definition sprint_re : regex :=
  txt "### **" +++ Grp 1 (txt "Sprint " +++ plus digit +++ txt ":" +++ lazy_star any)
  +++ opt (txt "(" +++ lazy_star any +++ txt ")")
  +++ txt "**" +++ opt (txt ":") +++ Eos.

Definition microversion_pattern : string :=
  "^##### \*\*v(\d+\.\d+\.\d+\.\d+[a-z]?) - (.*?)\*\*.*$".

Definition microversion_re : regex :=
  txt "##### **v"
  +++ Grp 1 (plus digit +++ txt "." +++ plus digit +++ txt "." +++ plus digit
             +++ txt "." +++ plus digit +++ opt lower)
  +++ txt " - " +++ Grp 2 (lazy_star any) +++ txt "**" +++ star any +++ Eos.

(** The check mark U+2705 of the task pattern. *)
Definition check_mark : char := 9989%N.

(** The alternatives that end the description of a task. *)
Definition task_end : regex :=
  txt " - **Effort" <|> txt "[Effort" <|> txt "(Effort" <|> txt "Dependencies"
  <|> txt "Assignee" <|> txt "Granular Steps" <|> txt "Completion Notes" <|> Eos.

(** In the source the third alternative of the first group is the check
    mark character itself, written here as U+2705. *)
Definition task_pattern : string :=
  "^- \[(x| |U+2705)\] \*\*([A-Z]+\d+(?:\.\d+)*)\*\*: (.*?)(?: - \*\*Effort|\[Effort|\(Effort|Dependencies|Assignee|Granular Steps|Completion Notes|$)".

Definition task_re : regex :=
  txt "- [" +++ Grp 1 (txt "x" <|> txt " " <|> chr check_mark) +++ txt "] **"
  +++ Grp 2 (plus upper +++ plus digit +++ star (txt "." +++ plus digit))
  +++ txt "**: " +++ Grp 3 (lazy_star any) +++ task_end.

Definition epic_match (line : str) := re_match epic_re line.
Definition sprint_match (line : str) := re_match sprint_re line.
Definition microversion_match (line : str) := re_match microversion_re line.
Definition task_match (line : str) := re_match task_re line.

Local Close Scope regex_scope.
Local Close Scope string_scope.

(** The three variables of the scan. *)
Record State : Type := {
  sprints : list Sprint;
  current_sprint : option Sprint;
  current_microversion : option Microversion
}.

Definition initial : State :=
  {| sprints := []; current_sprint := None; current_microversion := None |}.

(** [{"title": t, "microversions": []}] *)
Definition new_sprint (t : str) : Sprint :=
  {| sprint_title := t; sprint_microversions := []; sprint_tasks := None |}.

(** [sp["microversions"].append(mv)] *)
Definition append_microversion (sp : Sprint) (mv : Microversion) : Sprint :=
  {| sprint_title := sprint_title sp;
     sprint_microversions := sprint_microversions sp ++ [mv];
     sprint_tasks := sprint_tasks sp |}.

(** [mv["tasks"].append(t)] *)
Definition append_task (mv : Microversion) (t : Task) : Microversion :=
  {| mv_title := mv_title mv; mv_tasks := mv_tasks mv ++ [t] |}.

(** [if current_sprint: sprints.append(current_sprint)] *)
Definition sprints_with_current (st : State) : list Sprint :=
  match current_sprint st with
  | Some sp => sprints st ++ [sp]
  | None => sprints st
  end.

(** What an epic header and a sprint header both do. *)
Definition open_sprint (st : State) (t : str) : State :=
  {| sprints := sprints_with_current st;
     current_sprint := Some (new_sprint t);
     current_microversion := None |}.

Definition open_microversion (st : State) (sp : Sprint) (m : captures) : State :=
  {| sprints := sprints st;
     current_sprint :=
       Some (match current_microversion st with
             | Some mv => append_microversion sp mv
             | None => sp
             end);
     current_microversion :=
       Some {| mv_title := lit "v"%string ++ group m 1 ++ lit " - "%string ++ strip (group m 2);
               mv_tasks := [] |} |}.

Definition task_of_match (m : captures) : Task :=
  let status_char := group m 1 in
  {| task_id := group m 2;
     task_description := strip (group m 3);
     task_status :=
       if Str.eqb status_char (lit "x"%string) || Str.eqb status_char [check_mark]
       then Complete else Open |}.

Definition add_task (st : State) (mv : Microversion) (m : captures) : State :=
  {| sprints := sprints st;
     current_sprint := current_sprint st;
     current_microversion := Some (append_task mv (task_of_match m)) |}.

(** The body of the loop over the lines. *)
Definition step (st : State) (line : str) : State :=
  match epic_match line with
  | Some m => open_sprint st (strip (group m 1))
  | None =>
  match sprint_match line with
  | Some m => open_sprint st (strip (group m 1))
  | None =>
  match microversion_match line, current_sprint st with
  | Some m, Some sp => open_microversion st sp m
  | _, _ =>
  match task_match line, current_microversion st with
  | Some m, Some mv => add_task st mv m
  | _, _ => st
  end end end end.

Definition scan (lines : list str) : State := fold_left step lines initial.

(** The two statements after the loop. *)
Definition finish (st : State) : list Sprint :=
  let last_sprint :=
    match current_microversion st, current_sprint st with
    | Some mv, Some sp => Some (append_microversion sp mv)
    | _, cs => cs
    end in
  match last_sprint with
  | Some sp => sprints st ++ [sp]
  | None => sprints st
  end.

Definition parse_lines (lines : list str) : list Sprint := finish (scan lines).

Definition parse_markdown (md_content : str) : list Sprint :=
  parse_lines (splitlines md_content).

End Parser.

Import Parser.

(* ================================================================== *)
(** ** Python numbers *)

(** A Python [float] is a binary64 number.  Its value is kept as the
    exact rational, and every operation rounds the exact result to 53
    significant bits, ties to even.  The exponent range is not modelled:
    the quotients of list lengths the renderer forms are far from the
    overflow and underflow thresholds. *)
Module Float.

Local Open Scope Z_scope.

(** The integer nearest to [y], ties to the even one. *)
Definition round_half_even (y : Q) : Z :=
  let f := Qfloor y in
  match Qcompare (y - inject_Z f) (1 # 2) with
  | Lt => f
  | Gt => f + 1
  | Eq => if Z.even f then f else f + 1
  end.

(** The power of two [2 ^ e], for an exponent of either sign. *)
Definition pow2 (e : Z) : Q :=
  if 0 <=? e then inject_Z (2 ^ e) else (/ inject_Z (2 ^ (- e)))%Q.

(** The integer part of the binary logarithm of a positive rational. *)
Definition ilog2 (x : Q) : Z :=
  let e := Z.log2 (Qnum x) - Z.log2 (Zpos (Qden x)) in
  if Qle_bool (pow2 e) x then e else e - 1.

(** Rounding of an exact result to binary64: the mantissa is the exact
    value scaled to 53 bits and rounded to an integer. *)
Definition round64 (x : Q) : Q :=
  if Qeq_bool x 0 then 0%Q
  else
    let scale := pow2 (52 - ilog2 (Qabs x)) in
    (inject_Z (round_half_even (x * scale)) / scale)%Q.

(** [a / b] on two ints with [b] positive: true division. *)
Definition int_truediv (a b : nat) : Q :=
  round64 (inject_Z (Z.of_nat a) / inject_Z (Z.of_nat b)).

(** [x * n] for a float and an int. *)
Definition mul_int (x : Q) (n : Z) : Q := round64 (x * inject_Z n).

End Float.

(** A value that is an [int] or a [float], as the two progress
    variables of the renderer are. *)
Inductive number : Type :=
| Int (z : Z)
| Float (q : Q).

Definition number_value (x : number) : Q :=
  match x with
  | Int z => inject_Z z
  | Float q => q
  end.

(** [str(z)] for an int. *)
Definition str_of_Z (z : Z) : str :=
  lit (NilZero.string_of_int (Z.to_int z)).

(** [format(x, ".1f")]: the value rounded to one decimal, ties to even,
    and written with exactly one digit after the point.  An int is
    formatted as the float of the same value. *)
Definition format_1f (x : number) : str :=
  let q := number_value x in
  let n := Float.round_half_even (Qabs q * inject_Z 10) in
  (match Qcompare q 0 with Lt => lit "-" | _ => [] end)
  ++ str_of_Z (n / 10) ++ lit "." ++ str_of_Z (n mod 10).

(* ================================================================== *)
(** ** The renderer: [generate_html_report] *)

Module Renderer.

Local Open Scope string_scope.
Local Open Scope list_scope.

Definition dq : str := [34%N].      (* the double quote *)
Definition nl : str := [10%N].      (* the line feed *)

Section Report.

(** What the renderer takes from the Python runtime. *)
Variable relpath : str -> str -> str.    (* os.path.relpath(path, start) *)
Variable dirname : str -> str.           (* os.path.dirname(path) *)
Variable float_repr : Q -> str.          (* str(x) of a float x *)

(** The replacement field [{x}] for an int or a float. *)
Definition str_of_number (x : number) : str :=
  match x with
  | Int z => str_of_Z z
  | Float q => float_repr q
  end.

(** [task['status'] == 'Complete'] *)
Definition is_complete (t : Task) : bool :=
  match task_status t with
  | Complete => true
  | Open => false
  end.

(** [sum(1 for task in tasks if task['status'] == 'Complete')] *)
Definition count_complete (tasks : list Task) : nat :=
  length (filter is_complete tasks).

(** [(completed / total * 100) if total > 0 else 0] *)
Definition progress (completed total : nat) : number :=
  if (0 <? total)%nat
  then Float (Float.mul_int (Float.int_truediv completed total) 100)
  else Int 0.

(** The list item of one task. *)
Definition task_item (task : Task) : str :=
  let status_class :=
    if is_complete task then lit "task-complete" else lit "task-open" in
  lit "      <li class=" ++ dq ++ status_class ++ dq ++ lit "><strong>"
  ++ task_id task ++ lit "</strong>: " ++ task_description task
  ++ lit "</li>" ++ nl.

Definition task_items (tasks : list Task) : str :=
  concat (map task_item tasks).

(** The progress bar element, the same at both levels: the width is the
    plain value, the label is [completed/total (p%)] with [p] to one
    decimal. *)
Definition progress_bar (completed total : nat) (p : number) : str :=
  lit "<div class=" ++ dq ++ lit "progress-bar" ++ dq ++ lit " style=" ++ dq
  ++ lit "width: " ++ str_of_number p ++ lit "%;" ++ dq ++ lit ">"
  ++ of_nat completed ++ lit "/" ++ of_nat total
  ++ lit " (" ++ format_1f p ++ lit "%)</div>".

Definition microversion_open (mv : Microversion) : str :=
  lit "  <div class=" ++ dq ++ lit "microversion" ++ dq ++ lit ">" ++ nl
  ++ lit "    <h3>" ++ mv_title mv ++ lit "</h3>" ++ nl.

Definition microversion_bar (completed total : nat) : str :=
  lit "    <div class=" ++ dq ++ lit "progress-bar-container" ++ dq
  ++ lit ">" ++ nl
  ++ lit "      " ++ progress_bar completed total (progress completed total)
  ++ nl ++ lit "    </div>" ++ nl.

Definition no_tasks_notice : str :=
  lit "    <p>No tasks defined for this microversion.</p>" ++ nl.

Definition microversion_list (tasks : list Task) : str :=
  lit "    <ul>" ++ nl ++ task_items tasks ++ lit "    </ul>" ++ nl.

Definition microversion_close : str := lit "  </div>" ++ nl.

(** The variables the loop over the microversions of a sprint updates. *)
Record Totals : Type := {
  html_content : str;
  total_sprint_tasks : nat;
  completed_sprint_tasks : nat
}.

(** The body of the loop over [sprint["microversions"]]. *)
Definition render_microversion (acc : Totals) (mv : Microversion) : Totals :=
  let total_mv_tasks := length (mv_tasks mv) in
  let completed_mv_tasks := count_complete (mv_tasks mv) in
  {| html_content :=
       html_content acc
       ++ microversion_open mv
       ++ microversion_bar completed_mv_tasks total_mv_tasks
       ++ (match mv_tasks mv with
           | _ :: _ => microversion_list (mv_tasks mv)
           | [] => no_tasks_notice
           end)
       ++ microversion_close;
     total_sprint_tasks := total_sprint_tasks acc + total_mv_tasks;
     completed_sprint_tasks := completed_sprint_tasks acc + completed_mv_tasks |}.

Definition sprint_open (sprint : Sprint) : str :=
  lit "<section class=" ++ dq ++ lit "sprint" ++ dq ++ lit ">" ++ nl
  ++ lit "  <h2>" ++ sprint_title sprint ++ lit "</h2>" ++ nl.

(** The tasks directly under a sprint, when the dict has a non-empty
    "tasks" entry. *)
Definition render_direct_tasks (acc : Totals) (sprint : Sprint) : Totals :=
  match sprint_tasks sprint with
  | Some ((_ :: _) as direct_tasks) =>
      {| html_content :=
           html_content acc ++ lit "  <ul>" ++ nl ++ task_items direct_tasks
           ++ lit "  </ul>" ++ nl;
         total_sprint_tasks := total_sprint_tasks acc + length direct_tasks;
         completed_sprint_tasks :=
           completed_sprint_tasks acc + count_complete direct_tasks |}
  | _ => acc
  end.

Definition sprint_summary (completed total : nat) : str :=
  lit "  <div class=" ++ dq ++ lit "sprint-summary progress-bar-container"
  ++ dq ++ lit ">" ++ nl
  ++ lit "      <strong>Sprint Progress:</strong> "
  ++ progress_bar completed total (progress completed total) ++ nl
  ++ lit "  </div>" ++ nl.

Definition sprint_close : str := lit "</section>" ++ nl.

(** The running figures of a sprint after its microversions: the state
    of the inner loop when it ends.  The block that the source guards
    with "no microversions and no direct tasks" only holds [pass]. *)
Definition sprint_totals (html : str) (sprint : Sprint) : Totals :=
  let start :=
    {| html_content := html ++ sprint_open sprint;
       total_sprint_tasks := 0;
       completed_sprint_tasks := 0 |} in
  fold_left render_microversion (sprint_microversions sprint)
            (render_direct_tasks start sprint).

(** The body of the loop over [sprints]. *)
Definition render_sprint (html : str) (sprint : Sprint) : str :=
  let acc := sprint_totals html sprint in
  html_content acc
  ++ (if (0 <? total_sprint_tasks acc)%nat
      then sprint_summary (completed_sprint_tasks acc) (total_sprint_tasks acc)
      else [])
  ++ sprint_close.

(** The head of the page, up to the opening of the main region; [now]
    is [datetime.now().strftime('%Y-%m-%d %H:%M:%S')]. *)
Definition page_head (output_path css_path now : str) : str :=
  lit "<!DOCTYPE html>" ++ nl
  ++ lit "<html lang=" ++ dq ++ lit "en" ++ dq ++ lit ">" ++ nl
  ++ lit "<head>" ++ nl
  ++ lit "    <meta charset=" ++ dq ++ lit "UTF-8" ++ dq ++ lit ">" ++ nl
  ++ lit "    <meta name=" ++ dq ++ lit "viewport" ++ dq ++ lit " content="
  ++ dq ++ lit "width=device-width, initial-scale=1.0" ++ dq ++ lit ">" ++ nl
  ++ lit "    <title>Agile Sprint Status Report</title>" ++ nl
  ++ lit "    <link rel=" ++ dq ++ lit "stylesheet" ++ dq ++ lit " href=" ++ dq
  ++ relpath css_path (dirname output_path) ++ dq ++ lit ">" ++ nl
  ++ lit "</head>" ++ nl
  ++ lit "<body>" ++ nl
  ++ lit "    <header>" ++ nl
  ++ lit "        <h1>Adventure Jumper - Agile Sprint Status Report</h1>" ++ nl
  ++ lit "        <p>Generated on: " ++ now ++ lit "</p>" ++ nl
  ++ lit "    </header>" ++ nl
  ++ lit "    <main>" ++ nl.

Definition page_foot : str :=
  nl
  ++ lit "    </main>" ++ nl
  ++ lit "    <footer>" ++ nl
  ++ lit "        <p>End of Report</p>" ++ nl
  ++ lit "    </footer>" ++ nl
  ++ lit "</body>" ++ nl
  ++ lit "</html>".

(** The text [generate_html_report] writes to [output_path]. *)
Definition generate_html_report
           (sprints : list Sprint) (output_path css_path now : str) : str :=
  fold_left render_sprint sprints (page_head output_path css_path now)
  ++ page_foot.

End Report.

End Renderer.

Import Renderer.

(* ================================================================== *)
(** ** Vocabulary of the statements *)

(** The capturing groups that occur in a pattern. *)
Fixpoint groups (r : regex) : list nat :=
  match r with
  | Eps | Sym _ | Eos => []
  | Cat r1 r2 | Alt r1 r2 => groups r1 ++ groups r2
  | Rep _ r1 => groups r1
  | Grp i r1 => i :: groups r1
  end.

(** The groups that take part in every match of a pattern. *)
Fixpoint defines (r : regex) (i : nat) : bool :=
  match r with
  | Eps | Sym _ | Eos | Rep _ _ => false
  | Cat r1 r2 => defines r1 i || defines r2 i
  | Alt r1 r2 => defines r1 i && defines r2 i
  | Grp j r1 => Nat.eqb i j || defines r1 i
  end.

(** [s] up to the first place where one of [markers] begins, or all of
    [s] when none does. *)
Fixpoint cut_at (markers : list str) (s : str) : str :=
  match s with
  | [] => []
  | c :: s' =>
      if existsb (fun m => starts_with m s) markers then []
      else c :: cut_at markers s'
  end.

(** The markers that end a task description in the task pattern. *)
Definition effort_markers : list str :=
  map lit [" - **Effort"; "[Effort"; "(Effort"; "Dependencies"; "Assignee";
           "Granular Steps"; "Completion Notes"]%string.

(** The same list as the specification words it, the first marker
    without its leading space. *)
Definition spec_markers : list str :=
  map lit ["- **Effort"; "[Effort"; "(Effort"; "Dependencies"; "Assignee";
           "Granular Steps"; "Completion Notes"]%string.

(** The description the specification gives for the text [rest] that
    follows the colon of a task line. *)
Definition spec_description (rest : str) : str :=
  strip (cut_at spec_markers rest).

(** A line as [splitlines] yields it holds no line feed. *)
Definition no_line_feed (line : str) : Prop := ~ In 10%N line.

(** The four kinds of recognised line, and the rest. *)
Inductive line_kind : Type :=
| EpicHeader | SprintHeader | MicroversionHeader | TaskLine | OtherLine.

Definition matched (m : option captures) : bool :=
  match m with Some _ => true | None => false end.

(** The first pattern that matches, in the order the parser asks. *)
Definition classify (line : str) : line_kind :=
  if matched (epic_match line) then EpicHeader
  else if matched (sprint_match line) then SprintHeader
  else if matched (microversion_match line) then MicroversionHeader
  else if matched (task_match line) then TaskLine
  else OtherLine.

(** How many of the four patterns match a line. *)
Definition match_count (line : str) : nat :=
  length (filter matched [epic_match line; sprint_match line;
                          microversion_match line; task_match line]).

(** The groups of a match object that is known to exist. *)
Definition the_match (m : option captures) : captures :=
  match m with Some g => g | None => no_captures end.

(** What the loop body does with a line: the branch of the one pattern
    that matches it, every group that branch reads having taken part in
    the match, or nothing when no pattern matches. *)
Definition line_effect (st : State) (line : str) : Prop :=
  match classify line with
  | EpicHeader =>
      exists m t, epic_match line = Some m /\ m 1 = Some t
        /\ step st line = open_sprint st (strip t)
  | SprintHeader =>
      exists m t, sprint_match line = Some m /\ m 1 = Some t
        /\ step st line = open_sprint st (strip t)
  | MicroversionHeader =>
      exists m v t, microversion_match line = Some m
        /\ m 1 = Some v /\ m 2 = Some t
        /\ step st line =
           match current_sprint st with
           | Some sp => open_microversion st sp m
           | None => st
           end
  | TaskLine =>
      exists m c i d, task_match line = Some m
        /\ m 1 = Some c /\ m 2 = Some i /\ m 3 = Some d
        /\ step st line =
           match current_microversion st with
           | Some mv => add_task st mv m
           | None => st
           end
  | OtherLine => match_count line = 0 /\ step st line = st
  end.

(** Python's [round(x, 1)] as a decimal: the multiple of one tenth
    nearest to [x], ties to the even one. *)
Definition round1 (x : Q) : Q :=
  (inject_Z (Float.round_half_even (x * inject_Z 10)) / inject_Z 10)%Q.

(** A non-negative decimal shown with exactly one digit after the
    point. *)
Definition one_decimal (d : Q) : str :=
  str_of_Z (Qfloor d) ++ lit "."
  ++ str_of_Z (Qfloor (d * inject_Z 10) mod 10).

(** The sum over the microversions of a sprint of a count on tasks. *)
Definition sum_over (f : list Task -> nat) (mvs : list Microversion) : nat :=
  fold_right (fun mv n => f (mv_tasks mv) + n) 0 mvs.

(** The state of the scan when it starts from [st]. *)
Definition scan_from (st : State) (lines : list str) : State :=
  fold_left step lines st.

(** The states the loop body can leave behind. *)
Inductive step_outcome (st : State) (line : str) : State -> Prop :=
| OutOpenSprint t :
    step_outcome st line (open_sprint st t)
| OutOpenMicroversion sp m :
    current_sprint st = Some sp ->
    step_outcome st line (open_microversion st sp m)
| OutAddTask mv m :
    current_microversion st = Some mv ->
    step_outcome st line (add_task st mv m)
| OutSkip :
    step_outcome st line st.

(** A microversion is only ever open inside an open sprint. *)
Definition well_nested (st : State) : Prop :=
  current_microversion st = None \/ exists sp, current_sprint st = Some sp.

(** What a successful run leaves to its continuation: a suffix of the
    input, and groups that differ from the initial ones only at the
    groups of the pattern, never losing one and holding every group
    the pattern defines. *)
Definition extends (r : regex) (g g' : captures) : Prop :=
  (forall j, ~ In j (groups r) -> g' j = g j)
  /\ (forall j, g j <> None -> g' j <> None).

(** The literals the four patterns begin with. *)
Definition epic_head : str := lit "## ".
Definition sprint_head : str := lit "### **".
Definition microversion_head : str := lit "##### **v".
Definition task_head : str := lit "- [".

(** Where the description of a task may end: at a marker or at the end
    of the line. *)
Definition at_end (s : str) : bool :=
  match s with
  | [] => true
  | [c] => N.eqb c 10
  | _ => false
  end.

Definition stops (s : str) : bool :=
  existsb (fun m => starts_with m s) effort_markers || at_end s.

(** What follows the lazy star of the description: group 3 is set to
    the part of [whole] consumed so far and the end of the pattern is
    tried. *)
Definition description_rest (whole : str) (s' : str) (g' : captures)
  : option captures :=
  run task_end s'
      (set_group 3 (firstn (length whole - length s') whole) g')
      (fun _ g'' => Some g'').

(** *** The text of the page *)

Section PageText.

Local Open Scope string_scope.
Local Open Scope list_scope.

Variable relpath : str -> str -> str.
Variable dirname : str -> str.
Variable float_repr : Q -> str.

(** The label and the width of a progress bar, the label with the
    percentage rounded to one decimal. *)
Definition progress_bar_text (completed total : nat) : str :=
  lit "<div class=" ++ dq ++ lit "progress-bar" ++ dq ++ lit " style=" ++ dq
  ++ lit "width: " ++ str_of_number float_repr (progress completed total)
  ++ lit "%;" ++ dq ++ lit ">"
  ++ of_nat completed ++ lit "/" ++ of_nat total ++ lit " ("
  ++ one_decimal (round1 (number_value (progress completed total)))
  ++ lit "%)</div>".

(** What one microversion adds to the page. *)
Definition microversion_block (mv : Microversion) : str :=
  microversion_open mv
  ++ microversion_bar float_repr (count_complete (mv_tasks mv))
                      (length (mv_tasks mv))
  ++ (if (0 <? length (mv_tasks mv))%nat
      then microversion_list (mv_tasks mv)
      else no_tasks_notice)
  ++ microversion_close.

(** The page head before and after the time stamp. *)
Definition page_head_before (output_path css_path : str) : str :=
  lit "<!DOCTYPE html>" ++ nl
  ++ lit "<html lang=" ++ dq ++ lit "en" ++ dq ++ lit ">" ++ nl
  ++ lit "<head>" ++ nl
  ++ lit "    <meta charset=" ++ dq ++ lit "UTF-8" ++ dq ++ lit ">" ++ nl
  ++ lit "    <meta name=" ++ dq ++ lit "viewport" ++ dq ++ lit " content="
  ++ dq ++ lit "width=device-width, initial-scale=1.0" ++ dq ++ lit ">" ++ nl
  ++ lit "    <title>Agile Sprint Status Report</title>" ++ nl
  ++ lit "    <link rel=" ++ dq ++ lit "stylesheet" ++ dq ++ lit " href=" ++ dq
  ++ relpath css_path (dirname output_path) ++ dq ++ lit ">" ++ nl
  ++ lit "</head>" ++ nl
  ++ lit "<body>" ++ nl
  ++ lit "    <header>" ++ nl
  ++ lit "        <h1>Adventure Jumper - Agile Sprint Status Report</h1>" ++ nl
  ++ lit "        <p>Generated on: ".

Definition page_head_after : str :=
  lit "</p>" ++ nl
  ++ lit "    </header>" ++ nl
  ++ lit "    <main>" ++ nl.

End PageText.

(** A value between 0 and 100 whose rounding to one decimal is between
    0 and 100 as well. *)
Definition is_percentage (x : number) : Prop :=
  (0 <= number_value x /\ number_value x <= inject_Z 100
   /\ 0 <= round1 (number_value x)
   /\ round1 (number_value x) <= inject_Z 100)%Q.

(** A progress indicator: the two counts it shows and the value of its
    width and percentage. *)
Definition sound_indicator (completed total : nat) : Prop :=
  completed <= total /\ is_percentage (progress completed total).

Local Open Scope string_scope.

(** A sprint of two microversions, one with a complete and an open
    task and one with no task, for the statements that take a sprint. *)
Definition sample_sprint : Sprint :=
  {| sprint_title := lit "Sprint 1: Bar";
     sprint_microversions :=
       [ {| mv_title := lit "v0.1.0.0 - Setup";
            mv_tasks :=
              [ {| task_id := lit "T1.1"; task_description := lit "Do thing";
                   task_status := Complete |};
                {| task_id := lit "T1.2";
                   task_description := lit "Do other thing";
                   task_status := Open |} ] |};
         {| mv_title := lit "v0.1.0.1 - Empty"; mv_tasks := [] |} ];
     sprint_tasks := None |}.

Local Close Scope string_scope.

(* ================================================================== *)
(** ** Vocabulary of the further statements *)

(** The match of an epic or sprint header, the epic pattern first as in
    the loop body. *)
Definition header_match (line : str) : option captures :=
  or_else (epic_match line) (sprint_match line).

(** The title a header line gives to the entry it opens. *)
Definition header_title (line : str) : option str :=
  match header_match line with
  | Some m => Some (strip (group m 1))
  | None => None
  end.

Definition header_titles (lines : list str) : list str :=
  flat_map (fun l => match header_title l with Some t => [t] | None => [] end)
           lines.

(** The title a microversion header line gives to its microversion. *)
Definition microversion_title (line : str) : option str :=
  match microversion_match line with
  | Some m =>
      Some (lit "v"%string ++ group m 1 ++ lit " - "%string
            ++ strip (group m 2))
  | None => None
  end.

Definition microversion_titles (lines : list str) : list str :=
  flat_map (fun l => match microversion_title l with
                     | Some t => [t]
                     | None => []
                     end) lines.

(** The task a task line stands for. *)
Definition task_of_line (line : str) : Task :=
  task_of_match (the_match (task_match line)).

(** A line that one of the four patterns matches. *)
Definition recognised (line : str) : bool := Nat.ltb 0 (match_count line).

(** An entry without the "tasks" key. *)
Definition no_tasks_key (sp : Sprint) : Prop := sprint_tasks sp = None.

(** A state of the scan with more sprints closed before it. *)
Definition with_closed (closed : list Sprint) (st : State) : State :=
  {| sprints := closed ++ sprints st;
     current_sprint := current_sprint st;
     current_microversion := current_microversion st |}.

(** The microversions of the open sprint, the open one last. *)
Definition open_microversions (st : State) : list Microversion :=
  match current_sprint st with
  | Some sp =>
      sprint_microversions sp
      ++ match current_microversion st with Some mv => [mv] | None => [] end
  | None => []
  end.

(** Three complete tasks, and two open ones, for the statements that
    take a list of tasks. *)
Definition complete_tasks_sample : list Task :=
  [ {| task_id := lit "T1.1"%string; task_description := lit "Do thing"%string;
       task_status := Complete |};
    {| task_id := lit "T1.2"%string; task_description := lit "Do more"%string;
       task_status := Complete |};
    {| task_id := lit "T1.3"%string; task_description := lit "Do all"%string;
       task_status := Complete |} ].

Definition open_tasks_sample : list Task :=
  [ {| task_id := lit "T2.1"%string; task_description := lit "Do thing"%string;
       task_status := Open |};
    {| task_id := lit "T2.2"%string; task_description := lit "Do more"%string;
       task_status := Open |} ].

(** A sprint dict that has tasks of its own besides a microversion. *)
Definition sprint_with_tasks_sample : Sprint :=
  {| sprint_title := lit "Sprint 2: Beta"%string;
     sprint_microversions :=
       [ {| mv_title := lit "v0.2.0.0 - Next"%string;
            mv_tasks := complete_tasks_sample |} ];
     sprint_tasks := Some open_tasks_sample |}.

(** [sep.join(lines)] *)
Fixpoint unlines (sep : str) (lines : list str) : str :=
  match lines with
  | [] => []
  | l :: ls =>
      match ls with
      | [] => l
      | _ :: _ => l ++ sep ++ unlines sep ls
      end
  end.

(** A line free of the characters at which [splitlines] cuts. *)
Definition no_linebreak (line : str) : Prop :=
  Forall (fun c => is_linebreak c = false) line.

(** The two statements of the main block that follow the reading of the
    file: the report for the text of the plan. *)
Definition report_of_markdown
    (relpath : str -> str -> str) (dirname : str -> str)
    (float_repr : Q -> str)
    (md_content output_html_path css_file_path now : str) : str :=
  let sprints_data := parse_markdown md_content in
  generate_html_report relpath dirname float_repr
                       sprints_data output_html_path css_file_path now.

(** *** The shape of names *)

(** The texts a pattern matches, groups and priorities put aside. *)
Inductive matches : regex -> str -> Prop :=
| MatchEps : matches Eps []
| MatchSym p c : p c = true -> matches (Sym p) [c]
| MatchCat r1 r2 a b :
    matches r1 a -> matches r2 b -> matches (Cat r1 r2) (a ++ b)
| MatchAltL r1 r2 a : matches r1 a -> matches (Alt r1 r2) a
| MatchAltR r1 r2 a : matches r2 a -> matches (Alt r1 r2) a
| MatchRepNil greedy r : matches (Rep greedy r) []
| MatchRepCons greedy r a b :
    matches r a -> matches (Rep greedy r) b -> matches (Rep greedy r) (a ++ b)
| MatchGrp i r a : matches r a -> matches (Grp i r) a
| MatchEos : matches Eos [].

(** Every character class of a pattern lies within [P]. *)
Fixpoint classes_within (P : char -> Prop) (r : regex) : Prop :=
  match r with
  | Eps | Eos => True
  | Sym p => forall c, p c = true -> P c
  | Cat r1 r2 | Alt r1 r2 => classes_within P r1 /\ classes_within P r2
  | Rep _ r1 | Grp _ r1 => classes_within P r1
  end.

(** The characters of a task identifier: an upper-case letter, a decimal
    digit or a dot. *)
Definition id_char (c : char) : bool :=
  in_range 65 90 c || is_digit c || N.eqb c 46.

(** A task identifier: an upper-case letter first, identifier characters
    throughout. *)
Definition plain_identifier (s : str) : Prop :=
  (exists u tail, s = u :: tail /\ in_range 65 90 u = true)
  /\ Forall (fun c => id_char c = true) s.

(** A text that begins with [word] and then a decimal digit. *)
Definition numbered (word : string) (s : str) : Prop :=
  exists d tail, s = lit word ++ d :: tail /\ is_digit d = true.

(** [m in s], for strings. *)
Fixpoint occurs (m s : str) : bool :=
  starts_with m s
  || match s with
     | [] => false
     | _ :: s' => occurs m s'
     end.

(** The characters for which [is_space] holds. *)
Definition space_chars : list char :=
  [9; 10; 11; 12; 13; 28; 29; 30; 31; 32; 133; 160; 5760; 8192; 8193; 8194;
   8195; 8196; 8197; 8198; 8199; 8200; 8201; 8202; 8232; 8233; 8239; 8287;
   12288]%N.

(** Conditions on titles and tasks, carried over to a microversion, to
    an entry and to a state of the scan. *)
Section EntryOk.

Variables title_ok mv_title_ok : str -> Prop.
Variable task_ok : Task -> Prop.

Definition microversion_ok (mv : Microversion) : Prop :=
  mv_title_ok (mv_title mv) /\ Forall task_ok (mv_tasks mv).

Definition entry_ok (sp : Sprint) : Prop :=
  title_ok (sprint_title sp)
  /\ Forall microversion_ok (sprint_microversions sp).

Definition state_ok (st : State) : Prop :=
  Forall entry_ok (sprints st)
  /\ (forall sp, current_sprint st = Some sp -> entry_ok sp)
  /\ (forall mv, current_microversion st = Some mv -> microversion_ok mv).

End EntryOk.

(** The conditions hold of every entry, microversion and task of a
    result. *)
Definition entries_satisfy
    (title_ok mv_title_ok : str -> Prop) (task_ok : Task -> Prop)
    (result : list Sprint) : Prop :=
  Forall (fun sp =>
            title_ok (sprint_title sp)
            /\ Forall (fun mv =>
                         mv_title_ok (mv_title mv)
                         /\ Forall task_ok (mv_tasks mv))
                      (sprint_microversions sp))
         result.

(** *** The figures and the text of a progress indicator *)

(** The number of tasks whose status is Complete. *)
Fixpoint complete_among (tasks : list Task) : nat :=
  match tasks with
  | [] => 0
  | t :: rest =>
      match task_status t with
      | Complete => S (complete_among rest)
      | Open => complete_among rest
      end
  end.

(** The percentage of [completed] in [total]: the binary64 quotient
    times 100, rounded again, when there is a task, and the int 0 when
    there is none. *)
Definition percent_of (completed total : nat) : number :=
  match total with
  | O => Int 0
  | S _ =>
      Float (Float.round64
               (Float.round64 (inject_Z (Z.of_nat completed)
                               / inject_Z (Z.of_nat total))
                * inject_Z 100))
  end.

(** The label of an indicator: [completed/total (p%)], [p] the
    percentage rounded to one decimal and shown with one decimal. *)
Definition indicator_label (completed total : nat) : str :=
  of_nat completed ++ lit "/"%string ++ of_nat total ++ lit " ("%string
  ++ one_decimal (round1 (number_value (percent_of completed total)))
  ++ lit "%)"%string.

(** The class of a list item: complete or open. *)
Definition status_class (t : Task) : str :=
  match task_status t with
  | Complete => lit "task-complete"%string
  | Open => lit "task-open"%string
  end.

(** The list item of a task: its class, its identifier in bold, its
    description. *)
Definition list_item (t : Task) : str :=
  lit "      <li class="%string ++ dq ++ status_class t ++ dq
  ++ lit "><strong>"%string ++ task_id t ++ lit "</strong>: "%string
  ++ task_description t ++ lit "</li>"%string ++ nl.

Section IndicatorText.

Variable float_repr : Q -> str.

(** The width of an indicator: the percentage as [str] shows it. *)
Definition indicator_width (completed total : nat) : str :=
  match percent_of completed total with
  | Int z => str_of_Z z
  | Float q => float_repr q
  end.

(** The element of an indicator, the same for a microversion and for a
    sprint. *)
Definition indicator (completed total : nat) : str :=
  lit "<div class="%string ++ dq ++ lit "progress-bar"%string ++ dq
  ++ lit " style="%string ++ dq ++ lit "width: "%string
  ++ indicator_width completed total ++ lit "%;"%string ++ dq
  ++ lit ">"%string ++ indicator_label completed total
  ++ lit "</div>"%string.

(** The text of a microversion: heading, indicator over its tasks, then
    the list of its tasks or, without a task, the notice. *)
Definition microversion_text (mv : Microversion) : str :=
  lit "  <div class="%string ++ dq ++ lit "microversion"%string ++ dq
  ++ lit ">"%string ++ nl
  ++ lit "    <h3>"%string ++ mv_title mv ++ lit "</h3>"%string ++ nl
  ++ lit "    <div class="%string ++ dq
  ++ lit "progress-bar-container"%string ++ dq ++ lit ">"%string ++ nl
  ++ lit "      "%string
  ++ indicator (complete_among (mv_tasks mv)) (length (mv_tasks mv)) ++ nl
  ++ lit "    </div>"%string ++ nl
  ++ match mv_tasks mv with
     | [] =>
         lit "    <p>No tasks defined for this microversion.</p>"%string ++ nl
     | _ :: _ =>
         lit "    <ul>"%string ++ nl
         ++ concat (map list_item (mv_tasks mv))
         ++ lit "    </ul>"%string ++ nl
     end
  ++ lit "  </div>"%string ++ nl.

End IndicatorText.

(* ================================================================== *)
(** ** Facts about the matcher *)

Module ReFacts.

Lemma or_else_some {A} (a b : option A) (c : A) :
  or_else a b = Some c -> a = Some c \/ b = Some c.
Proof. destruct a; simpl; auto. Qed.

Lemma starts_with_app (p s : str) :
  starts_with p s = true <-> exists s', s = p ++ s'.
Proof.
  revert s. induction p as [|a p IH]; intros s; simpl.
  - split; eauto.
  - destruct s as [|b s]; simpl.
    + split; [discriminate | intros [s' H]; discriminate].
    + rewrite andb_true_iff, N.eqb_eq, IH. split.
      * intros [-> [s' ->]]. eauto.
      * intros [s' H]. injection H as -> ->. eauto.
Qed.

(** A literal consumes exactly itself. *)
Lemma run_text (p s : str) g k :
  run (text p) s g k =
  if starts_with p s then k (skipn (length p) s) g else None.
Proof.
  revert s. induction p as [|a p IH]; intros s; simpl; [reflexivity|].
  destruct s as [|b s]; simpl; [reflexivity|].
  destruct (N.eqb a b); simpl; [apply IH | reflexivity].
Qed.

Lemma run_text_some (p s : str) g k c :
  run (text p) s g k = Some c ->
  exists s', s = p ++ s' /\ k s' g = Some c.
Proof.
  rewrite run_text. destruct (starts_with p s) eqn:E; [|discriminate].
  apply starts_with_app in E. destruct E as [s' ->].
  rewrite skipn_app, skipn_all, Nat.sub_diag. simpl. eauto.
Qed.

Lemma extends_refl r g : extends r g g.
Proof. split; auto. Qed.

Lemma set_group_same i v g : set_group i v g i = Some v.
Proof. unfold set_group. now rewrite Nat.eqb_refl. Qed.

Lemma set_group_other i j v g : j <> i -> set_group i v g j = g j.
Proof.
  intros H. unfold set_group. destruct (Nat.eqb_spec j i); [contradiction|reflexivity].
Qed.

Lemma set_group_keeps i j v g : g j <> None -> set_group i v g j <> None.
Proof.
  intros H. unfold set_group. destruct (Nat.eqb j i); [discriminate|exact H].
Qed.

Section Loop.

Variable body : str -> captures -> (str -> captures -> option captures)
                -> option captures.
Variable P : captures -> captures -> Prop.
Hypothesis P_refl : forall g, P g g.
Hypothesis P_trans : forall g1 g2 g3, P g1 g2 -> P g2 g3 -> P g1 g3.
Hypothesis body_sound : forall s g k c,
  body s g k = Some c ->
  exists pre s' g', s = pre ++ s' /\ k s' g' = Some c /\ P g g'.

Lemma rep_loop_sound greedy k fuel : forall s g c,
  rep_loop body greedy k fuel s g = Some c ->
  exists pre s' g', s = pre ++ s' /\ k s' g' = Some c /\ P g g'.
Proof.
  induction fuel as [|fuel IH]; intros s g c H; simpl in H.
  - exists [], s, g. auto.
  - assert (Hcases :
      body s g (fun s' g' =>
        if Nat.ltb (length s') (length s)
        then rep_loop body greedy k fuel s' g' else None) = Some c
      \/ k s g = Some c).
    { destruct greedy; apply or_else_some in H; tauto. }
    destruct Hcases as [Hmore | Hstop].
    + apply body_sound in Hmore.
      destruct Hmore as (pre1 & s1 & g1 & -> & Hk & HP).
      destruct (Nat.ltb (length s1) (length (pre1 ++ s1))); [|discriminate].
      apply IH in Hk. destruct Hk as (pre2 & s2 & g2 & -> & Hk & HP2).
      exists (pre1 ++ pre2), s2, g2. rewrite app_assoc. eauto.
    + exists [], s, g. auto.
Qed.

End Loop.

Lemma extends_trans_rep r g1 g2 g3 :
  extends r g1 g2 -> extends r g2 g3 -> extends r g1 g3.
Proof.
  intros [A1 B1] [A2 B2]. split; intros j H.
  - rewrite A2, A1; auto.
  - auto.
Qed.

(** Soundness of the matcher. *)
Lemma run_sound (r : regex) : forall s g k c,
  run r s g k = Some c ->
  exists pre s' g',
    s = pre ++ s' /\ k s' g' = Some c /\ extends r g g'
    /\ (forall j, defines r j = true -> g' j <> None).
Proof.
  induction r as [|p|r1 IH1 r2 IH2|r1 IH1 r2 IH2|greedy r1 IH1|i r1 IH1|];
    intros s g k c H; simpl in H.
  - exists [], s, g. repeat split; auto; discriminate.
  - destruct s as [|a s]; [discriminate|].
    destruct (p a); [|discriminate].
    exists [a], s, g. repeat split; auto; discriminate.
  - apply IH1 in H. destruct H as (pre1 & s1 & g1 & -> & H & E1 & D1).
    apply IH2 in H. destruct H as (pre2 & s2 & g2 & -> & H & E2 & D2).
    exists (pre1 ++ pre2), s2, g2. rewrite app_assoc.
    split; [reflexivity|]. split; [exact H|]. split.
    + destruct E1 as [A1 B1], E2 as [A2 B2]. split; intros j Hj.
      * simpl in Hj. rewrite in_app_iff in Hj.
        rewrite A2, A1; tauto.
      * auto.
    + intros j Hj. simpl in Hj. apply orb_true_iff in Hj.
      destruct Hj as [Hj|Hj]; [|auto].
      destruct E2 as [_ B2]. apply B2, D1, Hj.
  - apply or_else_some in H. destruct H as [H|H].
    + apply IH1 in H. destruct H as (pre & s' & g' & -> & H & E & D).
      exists pre, s', g'. repeat split; auto.
      * destruct E as [A _]. intros j Hj. apply A. simpl in Hj.
        rewrite in_app_iff in Hj. tauto.
      * apply E.
      * intros j Hj. simpl in Hj. apply andb_true_iff in Hj. apply D, Hj.
    + apply IH2 in H. destruct H as (pre & s' & g' & -> & H & E & D).
      exists pre, s', g'. repeat split; auto.
      * destruct E as [A _]. intros j Hj. apply A. simpl in Hj.
        rewrite in_app_iff in Hj. tauto.
      * apply E.
      * intros j Hj. simpl in Hj. apply andb_true_iff in Hj. apply D, Hj.
  - assert (Hbody : forall s0 g0 k0 c0, run r1 s0 g0 k0 = Some c0 ->
      exists pre s' g', s0 = pre ++ s' /\ k0 s' g' = Some c0 /\ extends r1 g0 g').
    { intros s0 g0 k0 c0 H0. apply IH1 in H0.
      destruct H0 as (pre & s' & g' & -> & H0 & E & _). eauto 6. }
    destruct (@rep_loop_sound (run r1) (extends r1) (@extends_refl r1)
                (@extends_trans_rep r1) Hbody greedy k _ _ _ _ H)
      as (pre & s' & g' & -> & Hk & E).
    exists pre, s', g'. repeat split; try apply E; auto; discriminate.
  - apply IH1 in H. destruct H as (pre & s' & g' & -> & H & E & D).
    rewrite length_app, Nat.add_sub, firstn_app, Nat.sub_diag, firstn_all in H.
    simpl in H. rewrite app_nil_r in H.
    exists pre, s', (set_group i pre g'). split; [reflexivity|].
    split; [exact H|]. destruct E as [A B]. split; [split|].
    + intros j Hj. simpl in Hj. rewrite set_group_other by intuition congruence.
      apply A. tauto.
    + intros j Hj. apply set_group_keeps. auto.
    + intros j Hj. simpl in Hj. apply orb_true_iff in Hj.
      destruct Hj as [Hj|Hj].
      * apply Nat.eqb_eq in Hj. subst j. rewrite set_group_same. discriminate.
      * apply set_group_keeps. auto.
  - exists [], s, g.
    assert (k s g = Some c).
    { destruct s as [|a [|b s]]; try discriminate; auto.
      destruct (N.eqb a 10); [auto|discriminate]. }
    repeat split; auto; discriminate.
Qed.

(** A group at the head of a pattern holds what its body consumed. *)
Lemma run_group (i : nat) (r : regex) s g k c :
  run (Grp i r) s g k = Some c ->
  exists pre s' g',
    s = pre ++ s' /\ k s' (set_group i pre g') = Some c /\ extends r g g'.
Proof.
  simpl. intros H. apply run_sound in H.
  destruct H as (pre & s' & g' & -> & H & E & _).
  rewrite length_app, Nat.add_sub, firstn_app, Nat.sub_diag, firstn_all in H.
  simpl in H. rewrite app_nil_r in H. eauto 6.
Qed.

(** Every group a pattern defines is set in a match object. *)
Lemma re_match_defines (r : regex) s m j :
  re_match r s = Some m -> defines r j = true -> m j <> None.
Proof.
  unfold re_match. intros H D. apply run_sound in H.
  destruct H as (pre & s' & g' & _ & H & _ & Hd).
  injection H as <-. auto.
Qed.

End ReFacts.

(* ================================================================== *)
(** ** Facts about the four patterns *)

Module PatternFacts.

Import ReFacts.

Lemma run_cat r1 r2 s g k :
  run (Cat r1 r2) s g k = run r1 s g (fun s' g' => run r2 s' g' k).
Proof. reflexivity. Qed.

Lemma run_alt r1 r2 s g k :
  run (Alt r1 r2) s g k = or_else (run r1 s g k) (run r2 s g k).
Proof. reflexivity. Qed.

(** A pattern that begins with a literal matches only lines that begin
    with it. *)
Lemma literal_head p r s m :
  re_match (Cat (text p) r) s = Some m -> starts_with p s = true.
Proof.
  unfold re_match. rewrite run_cat, run_text.
  destruct (starts_with p s); [reflexivity | discriminate].
Qed.

Lemma starts_with_both (p q s : str) :
  starts_with p s = true -> starts_with q s = true ->
  starts_with p q = true \/ starts_with q p = true.
Proof.
  revert q s. induction p as [|a p IH]; intros q s Hp Hq; [now left|].
  destruct q as [|b q]; [now right|].
  destruct s as [|c s]; [discriminate|]. simpl in *.
  apply andb_true_iff in Hp. destruct Hp as [Hac Hp].
  apply andb_true_iff in Hq. destruct Hq as [Hbc Hq].
  apply N.eqb_eq in Hac, Hbc. subst a b. rewrite N.eqb_refl. simpl.
  eapply IH; eauto.
Qed.

Lemma epic_match_head line m :
  epic_match line = Some m -> starts_with epic_head line = true.
Proof. apply literal_head. Qed.

Lemma sprint_match_head line m :
  sprint_match line = Some m -> starts_with sprint_head line = true.
Proof. apply literal_head. Qed.

Lemma microversion_match_head line m :
  microversion_match line = Some m -> starts_with microversion_head line = true.
Proof. apply literal_head. Qed.

Lemma task_match_head line m :
  task_match line = Some m -> starts_with task_head line = true.
Proof. apply literal_head. Qed.

Lemma heads_clash (p q line : str) :
  starts_with p q = false -> starts_with q p = false ->
  starts_with p line = true -> starts_with q line = true -> False.
Proof.
  intros H1 H2 Hp Hq.
  destruct (starts_with_both _ _ _ Hp Hq); congruence.
Qed.

(** No line matches two of the patterns. *)
Lemma epic_not_sprint line m m' :
  epic_match line = Some m -> sprint_match line = Some m' -> False.
Proof.
  intros H1 H2. apply epic_match_head in H1. apply sprint_match_head in H2.
  eapply (heads_clash epic_head sprint_head); eauto; reflexivity.
Qed.

Lemma epic_not_microversion line m m' :
  epic_match line = Some m -> microversion_match line = Some m' -> False.
Proof.
  intros H1 H2. apply epic_match_head in H1. apply microversion_match_head in H2.
  eapply (heads_clash epic_head microversion_head); eauto; reflexivity.
Qed.

Lemma epic_not_task line m m' :
  epic_match line = Some m -> task_match line = Some m' -> False.
Proof.
  intros H1 H2. apply epic_match_head in H1. apply task_match_head in H2.
  eapply (heads_clash epic_head task_head); eauto; reflexivity.
Qed.

Lemma sprint_not_microversion line m m' :
  sprint_match line = Some m -> microversion_match line = Some m' -> False.
Proof.
  intros H1 H2. apply sprint_match_head in H1. apply microversion_match_head in H2.
  eapply (heads_clash sprint_head microversion_head); eauto; reflexivity.
Qed.

Lemma sprint_not_task line m m' :
  sprint_match line = Some m -> task_match line = Some m' -> False.
Proof.
  intros H1 H2. apply sprint_match_head in H1. apply task_match_head in H2.
  eapply (heads_clash sprint_head task_head); eauto; reflexivity.
Qed.

Lemma microversion_not_task line m m' :
  microversion_match line = Some m -> task_match line = Some m' -> False.
Proof.
  intros H1 H2. apply microversion_match_head in H1. apply task_match_head in H2.
  eapply (heads_clash microversion_head task_head); eauto; reflexivity.
Qed.

Lemma at_most_one_pattern line : match_count line <= 1.
Proof.
  unfold match_count.
  destruct (epic_match line) as [m1|] eqn:E1;
  destruct (sprint_match line) as [m2|] eqn:E2;
  destruct (microversion_match line) as [m3|] eqn:E3;
  destruct (task_match line) as [m4|] eqn:E4; simpl; try lia; exfalso;
  eauto using epic_not_sprint, epic_not_microversion, epic_not_task,
    sprint_not_microversion, sprint_not_task, microversion_not_task.
Qed.

(** The groups the parser reads took part in the match. *)
Lemma epic_groups line m :
  epic_match line = Some m -> exists t, m 1 = Some t.
Proof.
  intros H. apply re_match_defines with (j := 1) in H; [|reflexivity].
  destruct (m 1); [eauto | contradiction].
Qed.

Lemma sprint_groups line m :
  sprint_match line = Some m -> exists t, m 1 = Some t.
Proof.
  intros H. apply re_match_defines with (j := 1) in H; [|reflexivity].
  destruct (m 1); [eauto | contradiction].
Qed.

Lemma microversion_groups line m :
  microversion_match line = Some m ->
  exists v t, m 1 = Some v /\ m 2 = Some t.
Proof.
  intros H.
  pose proof (@re_match_defines _ _ _ 1 H eq_refl) as H1.
  pose proof (@re_match_defines _ _ _ 2 H eq_refl) as H2.
  destruct (m 1), (m 2); try contradiction. eauto.
Qed.

Lemma task_groups line m :
  task_match line = Some m ->
  exists c i d, m 1 = Some c /\ m 2 = Some i /\ m 3 = Some d.
Proof.
  intros H.
  pose proof (@re_match_defines _ _ _ 1 H eq_refl) as H1.
  pose proof (@re_match_defines _ _ _ 2 H eq_refl) as H2.
  pose proof (@re_match_defines _ _ _ 3 H eq_refl) as H3.
  destruct (m 1), (m 2), (m 3); try contradiction. eauto 6.
Qed.

End PatternFacts.

(* ================================================================== *)
(** ** The shape of a task line *)

Module TaskFacts.

Import ReFacts PatternFacts.

Lemma run_eos s g k :
  run Eos s g k = if at_end s then k s g else None.
Proof. destruct s as [|a [|b s]]; reflexivity. Qed.

Lemma run_task_end s g :
  run task_end s g (fun _ g' => Some g') = if stops s then Some g else None.
Proof.
  unfold task_end, stops, effort_markers, txt.
  rewrite !run_alt, !run_text, run_eos. cbn [existsb map].
  repeat match goal with
         | |- context [starts_with ?p s] => destruct (starts_with p s); cbn [or_else orb]; try reflexivity
         end.
Qed.

Lemma at_end_no_line_feed s : no_line_feed s -> at_end s = true -> s = [].
Proof.
  destruct s as [|a [|b s]]; simpl; intros H E; try discriminate; auto.
  apply N.eqb_eq in E. subst a. exfalso. apply H. now left.
Qed.

Lemma run_any_cons c s g k :
  run any (c :: s) g k = if negb (N.eqb c 10) then k s g else None.
Proof. reflexivity. Qed.

Lemma description_rest_eq pre s g :
  description_rest (pre ++ s) s g =
  if stops s then Some (set_group 3 pre g) else None.
Proof.
  unfold description_rest. rewrite run_task_end.
  rewrite length_app, Nat.add_sub, firstn_app, Nat.sub_diag, firstn_all.
  cbn [firstn]. rewrite app_nil_r. reflexivity.
Qed.

(** The lazy star of the description stops at the first place where the
    rest of the pattern can match. *)
Lemma description_loop g whole fuel : forall pre s,
  whole = pre ++ s -> length s <= fuel -> no_line_feed s ->
  rep_loop (run any) false (description_rest whole) fuel s g
  = Some (set_group 3 (pre ++ cut_at effort_markers s) g).
Proof.
  induction fuel as [|fuel IH]; intros pre s Hw Hlen Hnl.
  - destruct s; [|simpl in Hlen; lia]. cbn [rep_loop]. subst whole.
    rewrite description_rest_eq. cbn [cut_at]. rewrite app_nil_r. reflexivity.
  - cbn [rep_loop]. rewrite Hw at 1. rewrite description_rest_eq.
    destruct (stops s) eqn:Hstop.
    + cbn [or_else].
      assert (Hcut : cut_at effort_markers s = []).
      { destruct s as [|c s]; [reflexivity|]. cbn [cut_at].
        unfold stops in Hstop.
        destruct (existsb (fun m => starts_with m (c :: s)) effort_markers);
          [reflexivity|].
        cbn [orb] in Hstop.
        apply at_end_no_line_feed in Hstop; [discriminate|exact Hnl]. }
      rewrite Hcut, app_nil_r. reflexivity.
    + cbn [or_else]. destruct s as [|c s]; [discriminate|].
      unfold stops in Hstop. apply orb_false_iff in Hstop.
      destruct Hstop as [Hmark _].
      cbn [cut_at]. rewrite Hmark, run_any_cons.
      assert (Hc : N.eqb c 10 = false).
      { apply N.eqb_neq. intros ->. apply Hnl. now left. }
      rewrite Hc. cbn [negb].
      assert (Hlt : Nat.ltb (length s) (length (c :: s)) = true)
        by (apply Nat.ltb_lt; simpl; lia).
      rewrite Hlt.
      rewrite (IH (pre ++ [c]) s).
      * rewrite <- app_assoc. reflexivity.
      * rewrite <- app_assoc. exact Hw.
      * simpl in Hlen. lia.
      * intros Hin. apply Hnl. now right.
Qed.

(** The last part of the task pattern, run on the text after the colon. *)
Lemma run_description rest g :
  no_line_feed rest ->
  run (Cat (Grp 3 (lazy_star any)) task_end) rest g (fun _ g' => Some g')
  = Some (set_group 3 (cut_at effort_markers rest) g).
Proof.
  intros Hnl. rewrite run_cat. unfold lazy_star. cbn [run].
  exact (@description_loop g rest (length rest) [] rest eq_refl (le_n _) Hnl).
Qed.

(** The check box group holds one of the three admitted characters. *)
Lemma run_checkbox s g k c :
  run (Grp 1 (Alt (txt "x") (Alt (txt " ") (chr check_mark)))) s g k = Some c ->
  exists box s',
    s = box :: s'
    /\ (box = 120%N \/ box = 32%N \/ box = check_mark)
    /\ k s' (set_group 1 [box] g) = Some c.
Proof.
  intros H. destruct s as [|a s]; [discriminate|].
  assert (Hf : firstn (length (a :: s) - length s) (a :: s) = [a]).
  { replace (length (a :: s) - length s) with 1 by (cbn [length]; lia). reflexivity. }
  cbn -[N.eqb check_mark Nat.sub firstn length] in H. rewrite Hf in H.
  exists a, s. split; [reflexivity|].
  apply or_else_some in H. destruct H as [H|H].
  - destruct (N.eqb_spec 120 a) as [<-|]; [auto|discriminate].
  - apply or_else_some in H. destruct H as [H|H].
    + destruct (N.eqb_spec 32 a) as [<-|]; [auto|discriminate].
    + destruct (N.eqb_spec check_mark a) as [<-|]; [auto|discriminate].
Qed.

(** The task pattern, piece by piece: a task line is the check box, the
    identifier and the text after the colon, and the three groups hold
    the box character, the identifier, and that text up to the first
    marker. *)
Lemma task_match_shape line m :
  no_line_feed line ->
  task_match line = Some m ->
  exists box ident rest,
    line = lit "- [" ++ box :: lit "] **" ++ ident ++ lit "**: " ++ rest
    /\ (box = 120%N \/ box = 32%N \/ box = check_mark)
    /\ m 1 = Some [box]
    /\ m 2 = Some ident
    /\ m 3 = Some (cut_at effort_markers rest).
Proof.
  intros Hnl H. unfold task_match, re_match, task_re in H.
  rewrite run_cat in H. apply run_text_some in H.
  destruct H as (s1 & -> & H).
  rewrite run_cat in H. apply run_checkbox in H.
  destruct H as (box & s2 & -> & Hbox & H).
  rewrite run_cat in H. apply run_text_some in H.
  destruct H as (s3 & -> & H).
  rewrite run_cat in H. apply run_group in H.
  destruct H as (ident & s4 & g2 & -> & H & [Hsame _]).
  rewrite run_cat in H. apply run_text_some in H.
  destruct H as (rest & -> & H).
  rewrite run_description in H.
  - injection H as <-. exists box, ident, rest.
    split; [reflexivity|]. split; [exact Hbox|].
    split; [|split].
    + rewrite !set_group_other by discriminate.
      rewrite Hsame by (simpl; tauto). apply set_group_same.
    + rewrite set_group_other by discriminate. apply set_group_same.
    + apply set_group_same.
  - intros Hin. apply Hnl.
    rewrite in_app_iff. right. right.
    rewrite in_app_iff. right.
    rewrite in_app_iff. right.
    rewrite in_app_iff. right. exact Hin.
Qed.

End TaskFacts.

(* ================================================================== *)
(** ** Lines *)

Module LineFacts.

Lemma linebreak_10 : is_linebreak 10%N = true.
Proof. reflexivity. Qed.

Lemma splitlines_from_no_line_feed n : forall s cur line,
  length s <= n -> no_line_feed cur ->
  In line (splitlines_from cur s) -> no_line_feed line.
Proof.
  induction n as [|n IH]; intros s cur line Hlen Hcur Hin.
  - destruct s; [|simpl in Hlen; lia]. simpl in Hin.
    destruct cur as [|a cur]; [contradiction|].
    destruct Hin as [<-|[]]. unfold no_line_feed.
    rewrite <- in_rev. exact Hcur.
  - destruct s as [|c s].
    + simpl in Hin. destruct cur as [|a cur]; [contradiction|].
      destruct Hin as [<-|[]]. unfold no_line_feed.
      rewrite <- in_rev. exact Hcur.
    + assert (Hrev : no_line_feed (rev cur))
        by (unfold no_line_feed; rewrite <- in_rev; exact Hcur).
      assert (Hnil : no_line_feed []) by (intros []).
      simpl in Hlen. cbn [splitlines_from] in Hin.
      destruct (N.eqb c 13) eqn:E13.
      * destruct s as [|c' s].
        -- destruct Hin as [<-|Hin]; [exact Hrev|].
           eapply (IH [] []); eauto. simpl. lia.
        -- destruct (N.eqb c' 10).
           ++ destruct Hin as [<-|Hin]; [exact Hrev|].
              eapply (IH s []); eauto. simpl in Hlen. lia.
           ++ destruct Hin as [<-|Hin]; [exact Hrev|].
              eapply (IH (c' :: s) []); eauto. lia.
      * destruct (is_linebreak c) eqn:Elb.
        -- destruct Hin as [<-|Hin]; [exact Hrev|].
           eapply (IH s []); eauto. lia.
        -- eapply (IH s (c :: cur)); eauto; [lia|].
           intros [->|H]; [|exact (Hcur H)].
           rewrite linebreak_10 in Elb. discriminate.
Qed.

(** No line of a document holds a line feed. *)
Lemma splitlines_no_line_feed md line :
  In line (splitlines md) -> no_line_feed line.
Proof.
  apply (splitlines_from_no_line_feed (n := length md)); [lia | intros []].
Qed.

End LineFacts.

(* ================================================================== *)
(** ** Facts about the scan *)

Module ParserFacts.

Import ReFacts PatternFacts TaskFacts LineFacts.

Lemma scan_app before after :
  scan (before ++ after) = scan_from (scan before) after.
Proof. unfold scan, scan_from. apply fold_left_app. Qed.

Lemma scan_from_cons st line lines :
  scan_from st (line :: lines) = scan_from (step st line) lines.
Proof. reflexivity. Qed.

(** The branch the loop body takes, by the pattern that matches. *)
Lemma step_epic st line m :
  epic_match line = Some m ->
  step st line = open_sprint st (strip (group m 1)).
Proof. intros H. unfold step. now rewrite H. Qed.

Lemma step_sprint st line m :
  sprint_match line = Some m ->
  step st line = open_sprint st (strip (group m 1)).
Proof.
  intros H. unfold step.
  destruct (epic_match line) eqn:E.
  - exfalso. eapply epic_not_sprint; eauto.
  - now rewrite H.
Qed.

Lemma step_microversion st line m :
  microversion_match line = Some m ->
  step st line =
  match current_sprint st with
  | Some sp => open_microversion st sp m
  | None => st
  end.
Proof.
  intros H. unfold step.
  destruct (epic_match line) eqn:E1;
    [exfalso; eapply epic_not_microversion; eauto|].
  destruct (sprint_match line) eqn:E2;
    [exfalso; eapply sprint_not_microversion; eauto|].
  rewrite H.
  destruct (current_sprint st); [reflexivity|].
  destruct (task_match line) eqn:E4;
    [exfalso; eapply microversion_not_task; eauto|].
  reflexivity.
Qed.

Lemma step_task st line m :
  task_match line = Some m ->
  step st line =
  match current_microversion st with
  | Some mv => add_task st mv m
  | None => st
  end.
Proof.
  intros H. unfold step.
  destruct (epic_match line) eqn:E1;
    [exfalso; eapply epic_not_task; eauto|].
  destruct (sprint_match line) eqn:E2;
    [exfalso; eapply sprint_not_task; eauto|].
  destruct (microversion_match line) eqn:E3;
    [exfalso; eapply microversion_not_task; eauto|].
  rewrite H. reflexivity.
Qed.

Lemma step_other st line :
  epic_match line = None -> sprint_match line = None ->
  microversion_match line = None -> task_match line = None ->
  step st line = st.
Proof. intros H1 H2 H3 H4. unfold step. now rewrite H1, H2, H3, H4. Qed.

Lemma step_cases st line : step_outcome st line (step st line).
Proof.
  unfold step.
  destruct (epic_match line); [constructor|].
  destruct (sprint_match line); [constructor|].
  destruct (microversion_match line), (current_sprint st) eqn:Es;
    try (now constructor);
    destruct (task_match line), (current_microversion st) eqn:Em;
    now constructor.
Qed.

Lemma well_nested_step st line : well_nested st -> well_nested (step st line).
Proof.
  intros H. destruct (step_cases st line) as [t|sp m Hs|mv m Hm|].
  - left. reflexivity.
  - right. simpl. eauto.
  - destruct H as [H|H]; [congruence|]. right. exact H.
  - exact H.
Qed.

Lemma well_nested_scan_from lines : forall st,
  well_nested st -> well_nested (scan_from st lines).
Proof.
  induction lines as [|l lines IH]; intros st H; [exact H|].
  rewrite scan_from_cons. apply IH, well_nested_step, H.
Qed.

Lemma well_nested_scan lines : well_nested (scan lines).
Proof. apply well_nested_scan_from. left. reflexivity. Qed.

(** An open sprint is still in the result when the scan goes on from
    any state: under the same title, with at least the microversions it
    already had, right after the sprints closed before it. *)
Lemma open_sprint_is_emitted lines : forall st sp,
  current_sprint st = Some sp ->
  exists sp' later,
    finish (scan_from st lines) = sprints st ++ sp' :: later
    /\ sprint_title sp' = sprint_title sp
    /\ sprint_tasks sp' = sprint_tasks sp
    /\ exists mvs,
         sprint_microversions sp' = sprint_microversions sp ++ mvs.
Proof.
  induction lines as [|l lines IH]; intros st sp Hsp.
  - unfold scan_from, finish. simpl. rewrite Hsp.
    destruct (current_microversion st) as [mv|].
    + exists (append_microversion sp mv), []. simpl. eauto 6.
    + exists sp, []. repeat split; auto. exists []. now rewrite app_nil_r.
  - rewrite scan_from_cons.
    destruct (step_cases st l) as [t|sp0 m Hs|mv m Hm|].
    + destruct (IH (open_sprint st t) (new_sprint t) eq_refl)
        as (sp' & later & Hfin & _).
      exists sp, (sp' :: later). rewrite Hfin. unfold open_sprint at 1.
      simpl. unfold sprints_with_current. rewrite Hsp, <- app_assoc.
      repeat split; auto. exists []. now rewrite app_nil_r.
    + rewrite Hsp in Hs. injection Hs as <-.
      edestruct (IH (open_microversion st sp m)) as (sp' & later & Hfin & Ht & Hk & mvs & Hm);
        [reflexivity|].
      exists sp', later. rewrite Hfin. simpl.
      destruct (current_microversion st) as [mv|]; simpl in *.
      * repeat split; auto. exists ([mv] ++ mvs). rewrite Hm, app_assoc. reflexivity.
      * repeat split; auto. eauto.
    + destruct (IH (add_task st mv m) sp Hsp) as (sp' & later & Hfin & H).
      exists sp', later. rewrite Hfin. auto.
    + apply IH, Hsp.
Qed.

End ParserFacts.

(* ================================================================== *)
(** ** The parser against its specification *)

Module ParserSpec.

Import ReFacts PatternFacts TaskFacts LineFacts ParserFacts.

Local Open Scope string_scope.
Local Open Scope list_scope.

(** *** Closing a sprint while a microversion is open *)

(** The two header branches append the open sprint as it stands and
    forget the open microversion. *)
Lemma header_forgets_open_microversion st sp mv t :
  current_sprint st = Some sp ->
  current_microversion st = Some mv ->
  sprints (open_sprint st t) = sprints st ++ [sp]
  /\ current_microversion (open_sprint st t) = None.
Proof.
  intros Hs Hm. unfold open_sprint, sprints_with_current. simpl.
  now rewrite Hs.
Qed.

(** C1, on the code: a sprint header that arrives while a microversion
    is open closes the sprint without that microversion.  In a document
    of two sprints with one microversion and one task each, the first
    sprint comes out with no microversion at all; only the microversion
    that is open at the end of the input is kept. *)
Theorem sprint_header_loses_open_microversion :
  parse_markdown
    (lit "### **Sprint 1: Alpha**" ++ nl
     ++ lit "##### **v0.1.0.0 - Setup**" ++ nl
     ++ lit "- [x] **T1.1**: Do thing" ++ nl
     ++ lit "### **Sprint 2: Beta**" ++ nl
     ++ lit "##### **v0.2.0.0 - Next**" ++ nl
     ++ lit "- [ ] **T2.1**: Do other thing")
  = [ {| sprint_title := lit "Sprint 1: Alpha";
         sprint_microversions := [];
         sprint_tasks := None |};
      {| sprint_title := lit "Sprint 2: Beta";
         sprint_microversions :=
           [ {| mv_title := lit "v0.2.0.0 - Next";
                mv_tasks := [ {| task_id := lit "T2.1";
                                 task_description := lit "Do other thing";
                                 task_status := Open |} ] |} ];
         sprint_tasks := None |} ].
Proof. vm_compute. reflexivity. Qed.

(** *** Orphan lines *)

(** C3: a task line met while no microversion is open, and a
    microversion header met while no sprint is open, leave the state of
    the scan as it was, so the document parses as if the line were not
    there. *)
Theorem orphan_line_is_discarded (before after : list str) (line : str) :
  (matched (task_match line) = true
   /\ current_microversion (scan before) = None)
  \/ (matched (microversion_match line) = true
      /\ current_sprint (scan before) = None) ->
  scan (before ++ [line]) = scan before
  /\ parse_lines (before ++ line :: after) = parse_lines (before ++ after).
Proof.
  intros H.
  assert (Hstep : step (scan before) line = scan before).
  { destruct H as [[Hm Hnone]|[Hm Hnone]].
    - destruct (task_match line) as [m|] eqn:E; [|discriminate].
      rewrite (@step_task _ _ _ E), Hnone. reflexivity.
    - destruct (microversion_match line) as [m|] eqn:E; [|discriminate].
      rewrite (@step_microversion _ _ _ E), Hnone. reflexivity. }
  split.
  - rewrite scan_app. unfold scan_from. simpl. exact Hstep.
  - unfold parse_lines. rewrite !scan_app, scan_from_cons, Hstep. reflexivity.
Qed.

Lemma orphan_line_is_discarded_witness :
  scan ([lit "### **Sprint 1: Bar**"] ++ [lit "- [x] **T1.1**: Do thing"])
  = scan [lit "### **Sprint 1: Bar**"]
  /\ parse_lines ([lit "### **Sprint 1: Bar**"]
                  ++ lit "- [x] **T1.1**: Do thing"
                  :: [lit "##### **v0.1.0.0 - Setup**"])
     = parse_lines ([lit "### **Sprint 1: Bar**"]
                    ++ [lit "##### **v0.1.0.0 - Setup**"]).
Proof.
  apply (orphan_line_is_discarded
           [lit "### **Sprint 1: Bar**"]
           [lit "##### **v0.1.0.0 - Setup**"]
           (lit "- [x] **T1.1**: Do thing")).
  left. split; vm_compute; reflexivity.
Defined.

(** *** The flat list *)

(** C4: an epic header directly followed by a sprint header gives two
    adjacent entries, the epic first and with no microversion, after the
    entries closed before them. *)
Theorem epic_then_sprint_are_two_entries
        (before after : list str) (e s : str) (me ms : captures) :
  epic_match e = Some me ->
  sprint_match s = Some ms ->
  exists mvs later,
    parse_lines (before ++ e :: s :: after)
    = sprints_with_current (scan before)
      ++ {| sprint_title := strip (group me 1);
            sprint_microversions := [];
            sprint_tasks := None |}
      :: {| sprint_title := strip (group ms 1);
            sprint_microversions := mvs;
            sprint_tasks := None |}
      :: later.
Proof.
  intros He Hs. unfold parse_lines.
  rewrite scan_app, !scan_from_cons, (@step_epic _ _ _ He), (@step_sprint _ _ _ Hs).
  set (st1 := open_sprint (scan before) (strip (group me 1))).
  destruct (@open_sprint_is_emitted after
              (open_sprint st1 (strip (group ms 1)))
              (new_sprint (strip (group ms 1))) eq_refl)
    as (sp' & later & Hfin & Ht & Hk & mvs & Hm).
  exists mvs, later. rewrite Hfin.
  destruct sp' as [t' m' k']. simpl in Ht, Hk, Hm. subst t' m' k'.
  unfold open_sprint at 1. cbn [sprints]. unfold sprints_with_current at 1.
  unfold st1 at 1. cbn [current_sprint open_sprint].
  rewrite <- app_assoc. reflexivity.
Qed.

Lemma epic_then_sprint_are_two_entries_witness :
  exists mvs later,
    parse_lines ([] ++ lit "## Epic 1: Foo" :: lit "### **Sprint 1: Bar**"
                    :: [lit "##### **v0.1.0.0 - Setup**"])
    = sprints_with_current (scan [])
      ++ {| sprint_title :=
              strip (group (the_match (epic_match (lit "## Epic 1: Foo"))) 1);
            sprint_microversions := [];
            sprint_tasks := None |}
      :: {| sprint_title :=
              strip (group (the_match
                              (sprint_match (lit "### **Sprint 1: Bar**"))) 1);
            sprint_microversions := mvs;
            sprint_tasks := None |}
      :: later.
Proof.
  apply (@epic_then_sprint_are_two_entries
           [] [lit "##### **v0.1.0.0 - Setup**"]
           (lit "## Epic 1: Foo") (lit "### **Sprint 1: Bar**"));
    vm_compute; reflexivity.
Defined.

(** *** The end of the input *)

(** C5: when the lines run out, the microversion still open is
    appended to the microversions of the sprint still open, and that
    sprint, so completed, is appended to the sprints already closed:
    the result ends with an entry that has the title of the open
    sprint and, after the microversions it had, the open microversion
    with its tasks.  Without an open microversion the open sprint is
    appended as it is, and with no sprint open there is no microversion
    open either, so nothing is left behind. *)
Theorem end_of_input_flushes (lines : list str) :
  match current_sprint (scan lines), current_microversion (scan lines) with
  | Some sp, Some mv =>
      parse_lines lines
      = sprints (scan lines)
        ++ [ {| sprint_title := sprint_title sp;
                sprint_microversions := sprint_microversions sp ++ [mv];
                sprint_tasks := sprint_tasks sp |} ]
  | Some sp, None =>
      parse_lines lines = sprints (scan lines) ++ [sp]
  | None, _ =>
      current_microversion (scan lines) = None
      /\ parse_lines lines = sprints (scan lines)
  end.
Proof.
  pose proof (well_nested_scan lines) as Hwn.
  unfold parse_lines, finish.
  destruct (current_sprint (scan lines)) as [sp|] eqn:Es.
  - destruct (current_microversion (scan lines)); reflexivity.
  - destruct Hwn as [Hm|[sp Hsp]]; [|congruence].
    rewrite Hm. auto.
Qed.

(** *** Task lines *)

Lemma char_eqb_single (a b : char) : Str.eqb [a] [b] = N.eqb a b.
Proof.
  unfold Str.eqb. destruct (list_eq_dec N.eq_dec [a] [b]) as [E|E].
  - injection E as ->. now rewrite N.eqb_refl.
  - destruct (N.eqb_spec a b) as [->|]; [contradiction|reflexivity].
Qed.

(** C6, as the code has it: a task line met while a microversion is open
    consists of the check box, the identifier and the text after the
    colon and its space; the task appended to the microversion has that
    identifier, is complete exactly for the boxes x and check mark, and
    its description is that text up to the first of the markers
    " - **Effort" (with its leading space), "[Effort", "(Effort",
    "Dependencies", "Assignee", "Granular Steps", "Completion Notes", or
    to the end of the line, stripped. *)
Theorem task_line_fields
        (md line : str) (st : State) (mv : Microversion) (m : captures) :
  In line (splitlines md) ->
  current_microversion st = Some mv ->
  task_match line = Some m ->
  exists box ident rest,
    line = lit "- [" ++ box :: lit "] **" ++ ident ++ lit "**: " ++ rest
    /\ (box = 120%N \/ box = 32%N \/ box = check_mark)
    /\ step st line =
       {| sprints := sprints st;
          current_sprint := current_sprint st;
          current_microversion :=
            Some (append_task mv
                    {| task_id := ident;
                       task_description := strip (cut_at effort_markers rest);
                       task_status :=
                         if N.eqb box 120 || N.eqb box check_mark
                         then Complete else Open |}) |}.
Proof.
  intros Hin Hmv Hm.
  apply splitlines_no_line_feed in Hin.
  destruct (@task_match_shape _ _ Hin Hm)
    as (box & ident & rest & Hline & Hbox & H1 & H2 & H3).
  exists box, ident, rest. split; [exact Hline|]. split; [exact Hbox|].
  rewrite (@step_task _ _ _ Hm), Hmv.
  unfold add_task, task_of_match, group. rewrite H1, H2, H3.
  change (lit "x") with [120%N]. rewrite !char_eqb_single. reflexivity.
Qed.

Lemma task_line_fields_witness :
  exists box ident rest,
    lit "- [x] **T1.1**: Do thing - **Effort**: 2h"
    = lit "- [" ++ box :: lit "] **" ++ ident ++ lit "**: " ++ rest
    /\ (box = 120%N \/ box = 32%N \/ box = check_mark)
    /\ step (scan [lit "### **Sprint 1: Bar**";
                   lit "##### **v0.1.0.0 - Setup**"])
            (lit "- [x] **T1.1**: Do thing - **Effort**: 2h")
       = {| sprints := sprints (scan [lit "### **Sprint 1: Bar**";
                                      lit "##### **v0.1.0.0 - Setup**"]);
            current_sprint :=
              current_sprint (scan [lit "### **Sprint 1: Bar**";
                                    lit "##### **v0.1.0.0 - Setup**"]);
            current_microversion :=
              Some (append_task
                      {| mv_title := lit "v0.1.0.0 - Setup"; mv_tasks := [] |}
                      {| task_id := ident;
                         task_description :=
                           strip (cut_at effort_markers rest);
                         task_status :=
                           if N.eqb box 120 || N.eqb box check_mark
                           then Complete else Open |}) |}.
Proof.
  apply (@task_line_fields
           (lit "##### **v0.1.0.0 - Setup**" ++ nl
            ++ lit "- [x] **T1.1**: Do thing - **Effort**: 2h")
           (lit "- [x] **T1.1**: Do thing - **Effort**: 2h")
           (scan [lit "### **Sprint 1: Bar**";
                  lit "##### **v0.1.0.0 - Setup**"])
           {| mv_title := lit "v0.1.0.0 - Setup"; mv_tasks := [] |}
           (the_match
              (task_match (lit "- [x] **T1.1**: Do thing - **Effort**: 2h")))).
  - vm_compute. right. left. reflexivity.
  - vm_compute. reflexivity.
  - vm_compute. reflexivity.
Defined.

(** C6, as the specification words it, fails: with the first marker
    read as "- **Effort", the description of the task below would end
    before the hyphen, at "Fix A"; the parser keeps the whole text, for
    the pattern asks for a space before the hyphen. *)
Lemma task_description_differs_from_spec :
  parse_lines [lit "### **Sprint 1: Bar**";
               lit "##### **v0.1.0.0 - Setup**";
               lit "- [ ] **T1**: Fix A- **Effort**: 2h"]
  = [ {| sprint_title := lit "Sprint 1: Bar";
         sprint_microversions :=
           [ {| mv_title := lit "v0.1.0.0 - Setup";
                mv_tasks :=
                  [ {| task_id := lit "T1";
                       task_description := lit "Fix A- **Effort**: 2h";
                       task_status := Open |} ] |} ];
         sprint_tasks := None |} ]
  /\ spec_description (lit " Fix A- **Effort**: 2h") = lit "Fix A".
Proof. split; vm_compute; reflexivity. Qed.

(** *** Totality *)

Lemma classify_effect st line : line_effect st line.
Proof.
  unfold line_effect, classify.
  destruct (epic_match line) as [m|] eqn:E1; cbn [matched].
  { destruct (@epic_groups _ _ E1) as [t Ht]. exists m, t.
    repeat split; auto. rewrite (@step_epic _ _ _ E1). unfold group.
    now rewrite Ht. }
  destruct (sprint_match line) as [m|] eqn:E2; cbn [matched].
  { destruct (@sprint_groups _ _ E2) as [t Ht]. exists m, t.
    repeat split; auto. rewrite (@step_sprint _ _ _ E2). unfold group.
    now rewrite Ht. }
  destruct (microversion_match line) as [m|] eqn:E3; cbn [matched].
  { destruct (@microversion_groups _ _ E3) as (v & t & Hv & Ht). exists m, v, t.
    repeat split; auto. apply step_microversion, E3. }
  destruct (task_match line) as [m|] eqn:E4; cbn [matched].
  { destruct (@task_groups _ _ E4) as (c & i & d & Hc & Hi & Hd). exists m, c, i, d.
    repeat split; auto. apply step_task, E4. }
  split.
  - unfold match_count. now rewrite E1, E2, E3, E4.
  - now apply step_other.
Qed.

(** C9: [parse_markdown] returns a list of sprints for every input, and
    on every line, in every state of the scan, the loop body either
    takes the branch of the one pattern that matches, reading only
    groups that took part in the match, or leaves the state alone; no
    line matches two patterns. *)
Theorem parse_markdown_is_total (md : str) (st : State) (line : str) :
  (exists result : list Sprint, parse_markdown md = result)
  /\ match_count line <= 1
  /\ line_effect st line.
Proof.
  split; [eauto|]. split; [apply at_most_one_pattern | apply classify_effect].
Qed.

End ParserSpec.

(* ================================================================== *)
(** ** Facts about the numbers *)

Module FloatFacts.

Import Float.

Local Open Scope Q_scope.

Lemma round_half_even_between (y : Q) :
  (Qfloor y <= round_half_even y <= Qfloor y + 1)%Z.
Proof.
  unfold round_half_even.
  destruct (Qcompare (y - inject_Z (Qfloor y)) (1 # 2)); [|lia|lia].
  destruct (Z.even (Qfloor y)); lia.
Qed.

Lemma round_half_even_nonneg (y : Q) : 0 <= y -> (0 <= round_half_even y)%Z.
Proof.
  intros H. pose proof (round_half_even_between y) as [Hlo _].
  assert (0 <= Qfloor y)%Z; [|lia].
  change 0%Z with (Qfloor 0). apply Qfloor_resp_le, H.
Qed.

(** Rounding to an integer never passes an integer bound. *)
Lemma round_half_even_le (y : Q) (n : Z) :
  y <= inject_Z n -> (round_half_even y <= n)%Z.
Proof.
  intros H.
  assert (Hfl : (Qfloor y <= n)%Z).
  { rewrite <- (Qfloor_Z n). apply Qfloor_resp_le, H. }
  destruct (Z.eq_dec (Qfloor y) n) as [E|E].
  - (* y is the integer n itself *)
    unfold round_half_even.
    assert (Hy : y - inject_Z (Qfloor y) == 0).
    { rewrite E. apply Qle_antisym.
      - apply (Qplus_le_l _ _ (inject_Z n)). ring_simplify. exact H.
      - apply (Qplus_le_l _ _ (inject_Z n)). ring_simplify.
        rewrite <- E. apply Qfloor_le. }
    assert (Hc : Qcompare (y - inject_Z (Qfloor y)) (1 # 2) = Lt).
    { rewrite Hy. reflexivity. }
    rewrite Hc. lia.
  - pose proof (round_half_even_between y). lia.
Qed.

Lemma pow2_nonneg_exp (k : Z) : (0 <= k)%Z -> pow2 k = inject_Z (2 ^ k).
Proof.
  intros H. unfold pow2. destruct (Z.leb_spec 0 k); [reflexivity|lia].
Qed.

(** The binary logarithm of a rational below an integer bound. *)
Lemma ilog2_le (x : Q) (B : Z) :
  0 < x -> x <= inject_Z B -> (ilog2 x <= Z.log2 B + 1)%Z.
Proof.
  intros Hpos Hle. destruct x as [n d]. unfold ilog2. cbn [Qnum Qden].
  assert (Hn : (0 < n)%Z).
  { unfold Qlt in Hpos. simpl in Hpos. lia. }
  assert (HB : (n <= B * Zpos d)%Z).
  { unfold Qle in Hle. simpl in Hle. lia. }
  assert (HBpos : (0 < B)%Z) by nia.
  assert (Hlog : (Z.log2 n <= Z.log2 B + Z.log2 (Zpos d) + 1)%Z).
  { etransitivity; [apply Z.log2_le_mono, HB|].
    apply Z.log2_mul_above; lia. }
  destruct (Qle_bool _ _); lia.
Qed.

(** Rounding to binary64 keeps a value between zero and an integer
    bound that is itself a binary64 number. *)
Lemma round64_bounds (x : Q) (B : Z) :
  (Z.log2 B + 1 <= 52)%Z ->
  0 <= x -> x <= inject_Z B ->
  0 <= round64 x /\ round64 x <= inject_Z B.
Proof.
  intros HB H0 HxB. unfold round64.
  destruct (Qeq_bool x 0) eqn:Ez.
  - split; [apply Qle_refl|]. eapply Qle_trans; eauto.
  - assert (Hpos : 0 < x).
    { apply Qle_lteq in H0. destruct H0 as [H0|H0]; [exact H0|].
      apply Qeq_bool_neq in Ez. exfalso. apply Ez. symmetry. exact H0. }
    assert (Habs : Qabs x = x).
    { destruct x as [[|p|p] d]; try reflexivity.
      unfold Qlt in Hpos. simpl in Hpos. lia. }
    rewrite Habs.
    pose proof (ilog2_le Hpos HxB) as Hlog.
    set (k := (52 - ilog2 x)%Z).
    assert (Hk : (0 <= k)%Z) by (unfold k; lia).
    rewrite (pow2_nonneg_exp Hk).
    assert (HS : (0 < 2 ^ k)%Z) by (apply Z.pow_pos_nonneg; lia).
    assert (HSq : 0 < inject_Z (2 ^ k)).
    { unfold Qlt. simpl. lia. }
    split.
    + apply Qle_shift_div_l; [exact HSq|]. rewrite Qmult_0_l.
      rewrite <- (Zle_Qle 0). apply round_half_even_nonneg.
      apply Qmult_le_0_compat; [exact H0|]. apply Qlt_le_weak, HSq.
    + apply Qle_shift_div_r; [exact HSq|].
      rewrite <- inject_Z_mult, <- Zle_Qle.
      apply round_half_even_le. rewrite inject_Z_mult.
      apply Qmult_le_r; assumption.
Qed.

(** The true quotient of two counts, the first at most the second, lies
    between zero and one. *)
Lemma int_truediv_bounds (a b : nat) :
  (a <= b)%nat -> (0 < b)%nat ->
  0 <= int_truediv a b /\ int_truediv a b <= 1.
Proof.
  intros Hab Hb. unfold int_truediv.
  assert (Hbq : 0 < inject_Z (Z.of_nat b)).
  { unfold Qlt. simpl. lia. }
  apply (round64_bounds (B := 1)); [simpl; lia| |].
  - apply Qle_shift_div_l; [exact Hbq|]. rewrite Qmult_0_l.
    rewrite <- (Zle_Qle 0). lia.
  - apply Qle_shift_div_r; [exact Hbq|]. rewrite Qmult_1_l.
    rewrite <- Zle_Qle. lia.
Qed.

(** A hundred times a value between zero and one lies between zero and
    a hundred. *)
Lemma mul_100_bounds (x : Q) :
  0 <= x -> x <= 1 ->
  0 <= mul_int x 100 /\ mul_int x 100 <= inject_Z 100.
Proof.
  intros H0 H1. unfold mul_int.
  apply (round64_bounds (B := 100)); [simpl; lia| |].
  - apply Qmult_le_0_compat; [exact H0|]. discriminate.
  - rewrite <- (Qmult_1_l (inject_Z 100)) at 2.
    apply Qmult_le_r; [reflexivity | exact H1].
Qed.

End FloatFacts.

(* ================================================================== *)
(** ** The renderer against its specification *)

Module RendererSpec.

Import FloatFacts.

Local Open Scope string_scope.
Local Open Scope list_scope.

(** *** The one-decimal format *)

Lemma round_half_even_comp (x y : Q) :
  (x == y)%Q -> Float.round_half_even x = Float.round_half_even y.
Proof.
  intros E. unfold Float.round_half_even.
  rewrite (Qfloor_comp _ _ E).
  assert (E' : (x - inject_Z (Qfloor y) == y - inject_Z (Qfloor y))%Q)
    by (rewrite E; reflexivity).
  rewrite (Qcompare_comp _ _ E' _ _ (Qeq_refl (1 # 2))). reflexivity.
Qed.

Lemma Qfloor_tenths (n : Z) :
  Qfloor (inject_Z n / inject_Z 10) = (n / 10)%Z.
Proof. unfold Qfloor, Qdiv, Qmult, Qinv, inject_Z. simpl. now rewrite Z.mul_1_r. Qed.

Lemma Qfloor_tenths_scaled (n : Z) :
  Qfloor (inject_Z n / inject_Z 10 * inject_Z 10) = n.
Proof.
  unfold Qfloor, Qdiv, Qmult, Qinv, inject_Z. simpl.
  rewrite Z.mul_1_r. apply Z.div_mul. discriminate.
Qed.

(** The text [format(x, ".1f")] produces is [round(x, 1)] shown with
    one decimal. *)
Lemma format_1f_is_round1 (x : number) :
  (0 <= number_value x)%Q ->
  format_1f x = one_decimal (round1 (number_value x)).
Proof.
  intros H. unfold format_1f, one_decimal, round1.
  rewrite Qfloor_tenths, Qfloor_tenths_scaled.
  assert (Hsign : Qcompare (number_value x) 0 <> Lt).
  { intros E. apply Qlt_alt in E. apply Qlt_not_le in E. contradiction. }
  assert (Habs : (Qabs (number_value x) * inject_Z 10
                  == number_value x * inject_Z 10)%Q).
  { rewrite Qabs_pos by exact H. reflexivity. }
  rewrite (round_half_even_comp Habs).
  destruct (Qcompare (number_value x) 0); [reflexivity|contradiction|reflexivity].
Qed.

Section Report.

Variable relpath : str -> str -> str.
Variable dirname : str -> str.
Variable float_repr : Q -> str.

#[local] Abbreviation progress_bar := (progress_bar float_repr).
#[local] Abbreviation render_microversion := (render_microversion float_repr).
#[local] Abbreviation sprint_totals := (sprint_totals float_repr).
#[local] Abbreviation render_sprint := (render_sprint float_repr).
#[local] Abbreviation sprint_summary := (sprint_summary float_repr).
#[local] Abbreviation microversion_bar := (microversion_bar float_repr).
#[local] Abbreviation progress_bar_text := (progress_bar_text float_repr).
#[local] Abbreviation microversion_block := (microversion_block float_repr).
#[local] Abbreviation page_head_before :=
  (page_head_before relpath dirname).
#[local] Abbreviation generate_html_report :=
  (generate_html_report relpath dirname float_repr).

(** *** Counts and progress values *)

Lemma count_complete_le (tasks : list Task) :
  count_complete tasks <= length tasks.
Proof.
  unfold count_complete. induction tasks as [|t tasks IH]; simpl; [lia|].
  destruct (is_complete t); simpl; lia.
Qed.

Lemma sum_over_le (mvs : list Microversion) :
  sum_over count_complete mvs <= sum_over (@length Task) mvs.
Proof.
  induction mvs as [|mv mvs IH]; simpl; [lia|].
  pose proof (count_complete_le (mv_tasks mv)). lia.
Qed.

(** A progress value is a percentage. *)
Lemma progress_in_range (completed total : nat) :
  completed <= total ->
  (0 <= number_value (progress completed total)
   /\ number_value (progress completed total) <= inject_Z 100)%Q.
Proof.
  intros H. unfold progress.
  destruct (Nat.ltb_spec 0 total) as [Ht|Ht]; cbn [number_value].
  - destruct (int_truediv_bounds H Ht) as [H0 H1].
    apply mul_100_bounds; assumption.
  - split; discriminate.
Qed.

(** Rounding a percentage to one decimal gives a percentage. *)
Lemma round1_in_range (x : Q) :
  (0 <= x -> x <= inject_Z 100 ->
   0 <= round1 x /\ round1 x <= inject_Z 100)%Q.
Proof.
  intros H0 H1. unfold round1.
  assert (H10 : (0 < inject_Z 10)%Q) by reflexivity.
  split.
  - apply Qle_shift_div_l; [exact H10|]. rewrite Qmult_0_l.
    rewrite <- (Zle_Qle 0). apply round_half_even_nonneg.
    apply Qmult_le_0_compat; [exact H0 | discriminate].
  - apply Qle_shift_div_r; [exact H10|].
    rewrite <- inject_Z_mult, <- Zle_Qle.
    apply round_half_even_le. rewrite inject_Z_mult.
    apply Qmult_le_r; assumption.
Qed.

Lemma indicator_is_sound (completed total : nat) :
  completed <= total -> sound_indicator completed total.
Proof.
  intros H. split; [exact H|].
  destruct (progress_in_range H) as [H0 H1].
  destruct (round1_in_range H0 H1) as [H2 H3].
  unfold is_percentage. auto.
Qed.

(** *** The loops as concatenations *)

Lemma progress_bar_is_text (completed total : nat) :
  completed <= total ->
  progress_bar completed total (progress completed total)
  = progress_bar_text completed total.
Proof.
  intros H. unfold Renderer.progress_bar, progress_bar_text.
  rewrite format_1f_is_round1; [reflexivity|].
  apply progress_in_range, H.
Qed.

Lemma render_microversion_block (acc : Totals) (mv : Microversion) :
  render_microversion acc mv =
  {| html_content := html_content acc ++ microversion_block mv;
     total_sprint_tasks := total_sprint_tasks acc + length (mv_tasks mv);
     completed_sprint_tasks :=
       completed_sprint_tasks acc + count_complete (mv_tasks mv) |}.
Proof.
  unfold Renderer.render_microversion, microversion_block. f_equal.
  destruct (mv_tasks mv); reflexivity.
Qed.

Lemma fold_microversions (mvs : list Microversion) : forall acc,
  fold_left render_microversion mvs acc =
  {| html_content := html_content acc ++ concat (map microversion_block mvs);
     total_sprint_tasks := total_sprint_tasks acc + sum_over (@length Task) mvs;
     completed_sprint_tasks :=
       completed_sprint_tasks acc + sum_over count_complete mvs |}.
Proof.
  induction mvs as [|mv mvs IH]; intros acc; cbn [fold_left map concat sum_over fold_right].
  - destruct acc; simpl. now rewrite app_nil_r, !Nat.add_0_r.
  - rewrite IH, render_microversion_block. cbn [html_content total_sprint_tasks completed_sprint_tasks].
    unfold sum_over. rewrite <- app_assoc, <- !Nat.add_assoc. reflexivity.
Qed.

(** *** The renderer's figures and the figures of the specification *)

Lemma count_complete_among (tasks : list Task) :
  count_complete tasks = complete_among tasks.
Proof.
  unfold count_complete.
  induction tasks as [|t tasks IH]; cbn [filter complete_among]; [reflexivity|].
  unfold is_complete at 1. destruct (task_status t); cbn [length]; now rewrite IH.
Qed.

Lemma sum_over_count_complete (mvs : list Microversion) :
  sum_over count_complete mvs = sum_over complete_among mvs.
Proof.
  induction mvs as [|mv mvs IH]; cbn [sum_over fold_right]; [reflexivity|].
  fold (sum_over count_complete mvs). fold (sum_over complete_among mvs).
  now rewrite IH, count_complete_among.
Qed.

Lemma progress_percent_of (completed total : nat) :
  progress completed total = percent_of completed total.
Proof. destruct total; reflexivity. Qed.

Lemma task_items_list_items (tasks : list Task) :
  task_items tasks = concat (map list_item tasks).
Proof.
  unfold task_items. f_equal. apply map_ext. intros t.
  unfold task_item, list_item, status_class, is_complete.
  destruct (task_status t); reflexivity.
Qed.

Lemma progress_bar_indicator (completed total : nat) :
  completed <= total ->
  progress_bar completed total (progress completed total)
  = indicator float_repr completed total.
Proof.
  intros H. rewrite (progress_bar_is_text H).
  unfold progress_bar_text, indicator, indicator_width, indicator_label.
  rewrite progress_percent_of. unfold str_of_number.
  rewrite <- !app_assoc. reflexivity.
Qed.

Lemma microversion_block_text (mv : Microversion) :
  microversion_block mv = microversion_text float_repr mv.
Proof.
  unfold microversion_block, microversion_text, Renderer.microversion_bar,
    microversion_open, microversion_list, no_tasks_notice, microversion_close.
  rewrite (progress_bar_indicator (count_complete_le (mv_tasks mv))).
  rewrite count_complete_among, task_items_list_items.
  destruct (mv_tasks mv); cbn [length Nat.ltb Nat.leb];
    rewrite <- !app_assoc; reflexivity.
Qed.

Lemma microversion_blocks_text (mvs : list Microversion) :
  concat (map microversion_block mvs)
  = concat (map (microversion_text float_repr) mvs).
Proof.
  f_equal. apply map_ext. intros mv. apply microversion_block_text.
Qed.

(** *** The progress figures of a microversion *)

(** C2: a microversion adds to the page its heading, then a progress
    indicator, then its tasks, and adds its two counts to the running
    totals of the sprint.  The completed count is the number of its
    tasks whose status is Complete and the total is the number of its
    tasks.  The indicator is labelled [completed/total (p%)], where [p]
    is [round(completed / total * 100, 1)] shown with one decimal, the
    quotient and the product being binary64 operations, and [p] is the
    int 0, shown as 0.0, when there is no task.  After the indicator
    comes the list with one item per task when there is a task, and the
    notice "No tasks defined for this microversion." in place of the
    list when there is none. *)
Theorem microversion_progress_rendering (acc : Totals) (mv : Microversion) :
  html_content (render_microversion acc mv)
  = html_content acc
    ++ lit "  <div class=" ++ dq ++ lit "microversion" ++ dq ++ lit ">" ++ nl
    ++ lit "    <h3>" ++ mv_title mv ++ lit "</h3>" ++ nl
    ++ lit "    <div class=" ++ dq ++ lit "progress-bar-container" ++ dq
    ++ lit ">" ++ nl
    ++ lit "      <div class=" ++ dq ++ lit "progress-bar" ++ dq
    ++ lit " style=" ++ dq ++ lit "width: "
    ++ indicator_width float_repr (complete_among (mv_tasks mv))
                       (length (mv_tasks mv))
    ++ lit "%;" ++ dq ++ lit ">"
    ++ of_nat (complete_among (mv_tasks mv)) ++ lit "/"
    ++ of_nat (length (mv_tasks mv)) ++ lit " ("
    ++ one_decimal
         (round1
            (match length (mv_tasks mv) with
             | O => 0
             | S _ =>
                 Float.round64
                   (Float.round64
                      (inject_Z (Z.of_nat (complete_among (mv_tasks mv)))
                       / inject_Z (Z.of_nat (length (mv_tasks mv))))
                    * inject_Z 100)
             end)%Q)
    ++ lit "%)</div>" ++ nl
    ++ lit "    </div>" ++ nl
    ++ match mv_tasks mv with
       | [] => lit "    <p>No tasks defined for this microversion.</p>" ++ nl
       | _ :: _ =>
           lit "    <ul>" ++ nl
           ++ concat (map list_item (mv_tasks mv))
           ++ lit "    </ul>" ++ nl
       end
    ++ lit "  </div>" ++ nl
  /\ total_sprint_tasks (render_microversion acc mv)
     = total_sprint_tasks acc + length (mv_tasks mv)
  /\ completed_sprint_tasks (render_microversion acc mv)
     = completed_sprint_tasks acc + complete_among (mv_tasks mv)
  /\ progress (complete_among (mv_tasks mv)) (length (mv_tasks mv))
     = percent_of (complete_among (mv_tasks mv)) (length (mv_tasks mv)).
Proof.
  rewrite render_microversion_block.
  cbn [html_content total_sprint_tasks completed_sprint_tasks].
  rewrite count_complete_among, microversion_block_text.
  split; [|split; [reflexivity|split; [reflexivity|apply progress_percent_of]]].
  unfold microversion_text, indicator, indicator_label, percent_of.
  f_equal. rewrite <- !app_assoc.
  destruct (length (mv_tasks mv)); reflexivity.
Qed.

(** *** The progress figures of a sprint *)

Lemma sprint_totals_no_direct_tasks (html : str) (sp : Sprint) :
  sprint_tasks sp = None ->
  sprint_totals html sp =
  {| html_content :=
       html ++ sprint_open sp
       ++ concat (map microversion_block (sprint_microversions sp));
     total_sprint_tasks := sum_over (@length Task) (sprint_microversions sp);
     completed_sprint_tasks :=
       sum_over count_complete (sprint_microversions sp) |}.
Proof.
  intros H. unfold Renderer.sprint_totals, render_direct_tasks.
  rewrite H, fold_microversions. cbn [html_content total_sprint_tasks completed_sprint_tasks].
  rewrite <- app_assoc. reflexivity.
Qed.

(** C7: for a sprint record (title and microversions, no "tasks"
    entry) the total of the sprint is the sum over its microversions of
    their numbers of tasks, and its completed count is the sum over its
    microversions of their numbers of tasks whose status is Complete.
    The sprint is rendered as its heading and its microversions, and
    then, when the total is positive, the summary "Sprint Progress:"
    with the indicator of the two sums, labelled [completed/total (p%)]
    with [p = round(completed / total * 100, 1)] to one decimal as for
    a microversion; when the total is zero no summary is rendered and
    the section closes right after the microversions. *)
Theorem sprint_progress_rendering (html : str) (sp : Sprint) :
  sprint_tasks sp = None ->
  total_sprint_tasks (sprint_totals html sp)
  = sum_over (@length Task) (sprint_microversions sp)
  /\ completed_sprint_tasks (sprint_totals html sp)
     = sum_over complete_among (sprint_microversions sp)
  /\ render_sprint html sp
     = html
       ++ lit "<section class=" ++ dq ++ lit "sprint" ++ dq ++ lit ">" ++ nl
       ++ lit "  <h2>" ++ sprint_title sp ++ lit "</h2>" ++ nl
       ++ concat (map (microversion_text float_repr) (sprint_microversions sp))
       ++ match sum_over (@length Task) (sprint_microversions sp) with
          | O => []
          | S _ =>
              lit "  <div class=" ++ dq
              ++ lit "sprint-summary progress-bar-container" ++ dq
              ++ lit ">" ++ nl
              ++ lit "      <strong>Sprint Progress:</strong> "
              ++ lit "<div class=" ++ dq ++ lit "progress-bar" ++ dq
              ++ lit " style=" ++ dq ++ lit "width: "
              ++ indicator_width float_repr
                   (sum_over complete_among (sprint_microversions sp))
                   (sum_over (@length Task) (sprint_microversions sp))
              ++ lit "%;" ++ dq ++ lit ">"
              ++ of_nat (sum_over complete_among (sprint_microversions sp))
              ++ lit "/"
              ++ of_nat (sum_over (@length Task) (sprint_microversions sp))
              ++ lit " ("
              ++ one_decimal
                   (round1
                      (Float.round64
                         (Float.round64
                            (inject_Z
                               (Z.of_nat (sum_over complete_among
                                            (sprint_microversions sp)))
                             / inject_Z
                                 (Z.of_nat (sum_over (@length Task)
                                              (sprint_microversions sp))))
                          * inject_Z 100)))
              ++ lit "%)</div>" ++ nl
              ++ lit "  </div>" ++ nl
          end
       ++ lit "</section>" ++ nl.
Proof.
  intros H. unfold Renderer.render_sprint.
  rewrite (@sprint_totals_no_direct_tasks html sp H).
  cbn [html_content total_sprint_tasks completed_sprint_tasks].
  rewrite sum_over_count_complete, microversion_blocks_text.
  split; [reflexivity|]. split; [reflexivity|].
  unfold Renderer.sprint_summary.
  rewrite (progress_bar_indicator
             (eq_ind _ (fun c => c <= _)
                     (sum_over_le (sprint_microversions sp)) _
                     (sum_over_count_complete (sprint_microversions sp)))).
  unfold sprint_open, sprint_close, indicator, indicator_label, percent_of.
  rewrite <- !app_assoc.
  destruct (sum_over (@length Task) (sprint_microversions sp));
    cbn [Nat.ltb Nat.leb number_value]; rewrite <- ?app_assoc; reflexivity.
Qed.

(** *** The page *)

Lemma direct_tasks_totals (acc : Totals) (sp : Sprint) :
  exists text n c,
    c <= n
    /\ render_direct_tasks acc sp =
       {| html_content := html_content acc ++ text;
          total_sprint_tasks := total_sprint_tasks acc + n;
          completed_sprint_tasks := completed_sprint_tasks acc + c |}
    /\ forall acc', render_direct_tasks acc' sp =
       {| html_content := html_content acc' ++ text;
          total_sprint_tasks := total_sprint_tasks acc' + n;
          completed_sprint_tasks := completed_sprint_tasks acc' + c |}.
Proof.
  unfold render_direct_tasks.
  destruct (sprint_tasks sp) as [[|t ts]|].
  - exists [], 0, 0. split; [lia|].
    split; [|intros acc']; [destruct acc|destruct acc']; simpl;
      now rewrite app_nil_r, !Nat.add_0_r.
  - exists (lit "  <ul>" ++ nl ++ task_items (t :: ts) ++ lit "  </ul>" ++ nl),
      (length (t :: ts)), (count_complete (t :: ts)).
    split; [apply count_complete_le|]. split; [|intros acc']; reflexivity.
  - exists [], 0, 0. split; [lia|].
    split; [|intros acc']; [destruct acc|destruct acc']; simpl;
      now rewrite app_nil_r, !Nat.add_0_r.
Qed.

(** The completed count of a sprint never exceeds its total. *)
Lemma sprint_totals_le (html : str) (sp : Sprint) :
  completed_sprint_tasks (sprint_totals html sp)
  <= total_sprint_tasks (sprint_totals html sp).
Proof.
  unfold Renderer.sprint_totals. rewrite fold_microversions.
  cbn [total_sprint_tasks completed_sprint_tasks].
  destruct (direct_tasks_totals
              {| html_content := html ++ sprint_open sp;
                 total_sprint_tasks := 0;
                 completed_sprint_tasks := 0 |} sp)
    as (text & n & c & Hle & -> & _).
  cbn [total_sprint_tasks completed_sprint_tasks].
  pose proof (sum_over_le (sprint_microversions sp)). lia.
Qed.

(** What a sprint adds to the page does not depend on the page so far. *)
Lemma render_sprint_appends (html : str) (sp : Sprint) :
  render_sprint html sp = html ++ render_sprint [] sp.
Proof.
  unfold Renderer.render_sprint, Renderer.sprint_totals.
  rewrite !fold_microversions.
  destruct (direct_tasks_totals
              {| html_content := html ++ sprint_open sp;
                 total_sprint_tasks := 0;
                 completed_sprint_tasks := 0 |} sp)
    as (text & n & c & _ & -> & Hany).
  rewrite Hany.
  cbn [html_content total_sprint_tasks completed_sprint_tasks app].
  rewrite <- !app_assoc. reflexivity.
Qed.

Lemma fold_sprints (sprints : list Sprint) : forall html,
  fold_left render_sprint sprints html
  = html ++ concat (map (render_sprint []) sprints).
Proof.
  induction sprints as [|sp sprints IH]; intros html; cbn [fold_left map concat].
  - now rewrite app_nil_r.
  - rewrite IH, render_sprint_appends, <- app_assoc. reflexivity.
Qed.

Lemma page_head_split (output_path css_path now : str) :
  page_head relpath dirname output_path css_path now
  = page_head_before output_path css_path ++ now ++ page_head_after.
Proof.
  unfold page_head, page_head_before, page_head_after.
  rewrite <- !app_assoc. reflexivity.
Qed.

(** C8: two renderings of the same sprints for the same paths are the
    same text around the time stamp: they differ at most in the time
    stamp itself. *)
Theorem report_differs_only_in_timestamp
        (sprints : list Sprint) (output_path css_path now1 now2 : str) :
  exists before after,
    generate_html_report sprints output_path css_path now1
    = before ++ now1 ++ after
    /\ generate_html_report sprints output_path css_path now2
       = before ++ now2 ++ after.
Proof.
  exists (page_head_before output_path css_path),
    (page_head_after ++ concat (map (render_sprint []) sprints) ++ page_foot).
  unfold Renderer.generate_html_report.
  rewrite !fold_sprints, !page_head_split, <- !app_assoc. split; reflexivity.
Qed.

(** *** Percentages *)

(** C10: in the model [parse_markdown] yields for any document, every
    progress indicator, of a microversion or of a sprint, shows a
    completed count that is at most the total count, and the progress
    value computed from the two, which is both the width and the
    percentage of the bar, lies between 0 and 100, as does its rounding
    to one decimal. *)
Theorem progress_values_are_percentages (md html : str) :
  Forall
    (fun sp =>
       Forall
         (fun mv =>
            sound_indicator (count_complete (mv_tasks mv))
                            (length (mv_tasks mv)))
         (sprint_microversions sp)
       /\ sound_indicator
            (completed_sprint_tasks (sprint_totals html sp))
            (total_sprint_tasks (sprint_totals html sp)))
    (parse_markdown md).
Proof.
  apply Forall_forall. intros sp _. split.
  - apply Forall_forall. intros mv _.
    apply indicator_is_sound, count_complete_le.
  - apply indicator_is_sound, sprint_totals_le.
Qed.

End Report.

Lemma sprint_progress_rendering_witness :
  total_sprint_tasks (sprint_totals (fun _ => lit "50.0") [] sample_sprint)
  = 2
  /\ completed_sprint_tasks
       (sprint_totals (fun _ => lit "50.0") [] sample_sprint)
     = 1
  /\ exists microversions,
       render_sprint (fun _ => lit "50.0") [] sample_sprint
       = lit "<section class=" ++ dq ++ lit "sprint" ++ dq ++ lit ">" ++ nl
         ++ lit "  <h2>Sprint 1: Bar</h2>" ++ nl
         ++ microversions
         ++ lit "  <div class=" ++ dq
         ++ lit "sprint-summary progress-bar-container" ++ dq
         ++ lit ">" ++ nl
         ++ lit "      <strong>Sprint Progress:</strong> "
         ++ lit "<div class=" ++ dq ++ lit "progress-bar" ++ dq
         ++ lit " style=" ++ dq ++ lit "width: 50.0%;" ++ dq
         ++ lit ">1/2 (50.0%)</div>" ++ nl
         ++ lit "  </div>" ++ nl
         ++ lit "</section>" ++ nl
       /\ microversions
          = concat (map (microversion_text (fun _ => lit "50.0"))
                        (sprint_microversions sample_sprint)).
Proof.
  destruct (@sprint_progress_rendering
              (fun _ => lit "50.0") [] sample_sprint eq_refl)
    as (Ht & Hc & Hr).
  split; [exact Ht|]. split; [exact Hc|].
  exists (concat (map (microversion_text (fun _ => lit "50.0"))
                      (sprint_microversions sample_sprint))).
  split; [|reflexivity].
  rewrite Hr. vm_compute. reflexivity.
Defined.

End RendererSpec.

(* ================================================================== *)
(** ** Further properties of the parser *)

Module ParserMore.

Import ReFacts PatternFacts TaskFacts LineFacts ParserFacts.

Local Open Scope string_scope.
Local Open Scope list_scope.

(** *** Header lines *)

Lemma header_title_step st line t :
  header_title line = Some t -> step st line = open_sprint st t.
Proof.
  unfold header_title, header_match. intros H.
  destruct (epic_match line) as [m|] eqn:E; cbn [or_else] in H.
  - injection H as <-. apply step_epic, E.
  - destruct (sprint_match line) as [m|] eqn:E'; [|discriminate].
    injection H as <-. apply step_sprint, E'.
Qed.

Lemma header_title_none line :
  header_title line = None ->
  epic_match line = None /\ sprint_match line = None.
Proof.
  unfold header_title, header_match.
  destruct (epic_match line); cbn [or_else]; [discriminate|].
  destruct (sprint_match line); [discriminate|auto].
Qed.

(** What the loop body can do with a line that is no header. *)
Lemma non_header_step st line :
  header_title line = None ->
  (step st line = st
   /\ (microversion_match line = None \/ current_sprint st = None))
  \/ (exists sp m,
        current_sprint st = Some sp
        /\ microversion_match line = Some m
        /\ step st line = open_microversion st sp m)
  \/ (exists mv m,
        current_microversion st = Some mv
        /\ task_match line = Some m
        /\ step st line = add_task st mv m).
Proof.
  intros H. apply header_title_none in H. destruct H as [H1 H2].
  unfold step. rewrite H1, H2.
  destruct (microversion_match line) as [m|] eqn:E3.
  - destruct (current_sprint st) as [sp|] eqn:Es.
    + right. left. eauto.
    + destruct (task_match line) as [m'|] eqn:E4.
      * exfalso. eapply microversion_not_task; eauto.
      * left. auto.
  - assert (Hrest :
      match task_match line, current_microversion st with
      | Some m, Some mv => add_task st mv m
      | _, _ => st
      end = st /\ True
      \/ exists mv m,
           current_microversion st = Some mv /\ task_match line = Some m
           /\ match task_match line, current_microversion st with
              | Some m, Some mv => add_task st mv m
              | _, _ => st
              end = add_task st mv m).
    { destruct (task_match line) as [m'|], (current_microversion st) as [mv|];
        eauto 6. }
    destruct (current_sprint st);
      (destruct Hrest as [[Hr _]|Hr]; [left; auto | right; right; exact Hr]).
Qed.

Lemma finish_titles st :
  map sprint_title (finish st) = map sprint_title (sprints_with_current st).
Proof.
  unfold finish, sprints_with_current.
  destruct (current_microversion st), (current_sprint st);
    rewrite ?map_app; reflexivity.
Qed.

Lemma non_header_keeps_titles st line :
  header_title line = None ->
  map sprint_title (sprints_with_current (step st line))
  = map sprint_title (sprints_with_current st).
Proof.
  intros H.
  destruct (@non_header_step st line H)
    as [[-> _]|[(sp & m & Hs & _ & ->)|(mv & m & Hm & _ & ->)]];
    [reflexivity| |reflexivity].
  unfold sprints_with_current, open_microversion. cbn [current_sprint sprints].
  rewrite Hs, !map_app. destruct (current_microversion st); reflexivity.
Qed.

Lemma titles_from lines : forall st,
  map sprint_title (finish (scan_from st lines))
  = map sprint_title (sprints_with_current st) ++ header_titles lines.
Proof.
  induction lines as [|l lines IH]; intros st.
  - cbn [header_titles flat_map]. rewrite app_nil_r. apply finish_titles.
  - rewrite scan_from_cons, IH. cbn [header_titles flat_map].
    destruct (header_title l) as [t|] eqn:H.
    + rewrite (@header_title_step st l t H).
      unfold open_sprint at 1. unfold sprints_with_current at 1.
      cbn [current_sprint sprints]. rewrite map_app, <- app_assoc. reflexivity.
    + rewrite (@non_header_keeps_titles st l H). reflexivity.
Qed.

Lemma parse_lines_titles (lines : list str) :
  map sprint_title (parse_lines lines) = header_titles lines.
Proof. unfold parse_lines, scan. apply (titles_from lines initial). Qed.

(** X1: the result has one entry per epic or sprint header line, in the
    order of the lines and under the stripped title of each, whatever
    else the document holds; equal titles give separate entries. *)
Theorem entries_follow_header_lines (lines : list str) :
  map sprint_title (parse_lines lines) = header_titles lines.
Proof.
  unfold parse_lines, scan.
  change (fold_left step lines initial) with (scan_from initial lines).
  rewrite titles_from. reflexivity.
Qed.

Lemma parse_lines_no_header (lines : list str) :
  Forall (fun l => header_title l = None) lines ->
  parse_lines lines = [].
Proof.
  intros H. apply map_eq_nil with (f := sprint_title).
  rewrite parse_lines_titles.
  induction H as [|l ls Hl _ IH]; [reflexivity|].
  cbn [header_titles flat_map]. rewrite Hl. exact IH.
Qed.

(** X2: a document none of whose lines is an epic or sprint header
    parses to the empty list, also when it holds microversion headers
    and task lines. *)
Theorem no_header_no_entry (lines : list str) :
  Forall (fun l => header_title l = None) lines ->
  parse_lines lines = [].
Proof.
  intros H. apply map_eq_nil with (f := sprint_title).
  rewrite parse_lines_titles.
  induction H as [|l ls Hl _ IH]; [reflexivity|].
  cbn [header_titles flat_map]. rewrite Hl. exact IH.
Qed.

Lemma no_header_no_entry_witness :
  parse_lines [lit "# Plan"; lit "##### **v0.1.0.0 - Setup**";
               lit "- [x] **T1.1**: Do thing"] = [].
Proof.
  apply (@no_header_no_entry
           [lit "# Plan"; lit "##### **v0.1.0.0 - Setup**";
            lit "- [x] **T1.1**: Do thing"]).
  repeat constructor.
Defined.

(** *** Lines no pattern matches *)

Lemma unrecognised_step st line :
  recognised line = false -> step st line = st.
Proof.
  unfold recognised, match_count. intros H. apply Nat.ltb_ge in H.
  destruct (epic_match line) eqn:E1; [simpl in H; lia|].
  destruct (sprint_match line) eqn:E2; [simpl in H; lia|].
  destruct (microversion_match line) eqn:E3; [simpl in H; lia|].
  destruct (task_match line) eqn:E4; [simpl in H; lia|].
  now apply step_other.
Qed.

Lemma scan_from_recognised lines : forall st,
  scan_from st lines = scan_from st (filter recognised lines).
Proof.
  induction lines as [|l lines IH]; intros st; [reflexivity|].
  cbn [filter]. destruct (recognised l) eqn:R.
  - rewrite !scan_from_cons. apply IH.
  - rewrite scan_from_cons, (@unrecognised_step st l R). apply IH.
Qed.

(** X3: the result depends only on the lines that one of the four
    patterns matches: blank lines, prose and malformed headers can be
    removed from or added to a document without changing its parse. *)
Theorem only_recognised_lines_count (lines : list str) :
  parse_lines lines = parse_lines (filter recognised lines).
Proof.
  unfold parse_lines, scan.
  change (finish (scan_from initial lines)
          = finish (scan_from initial (filter recognised lines))).
  now rewrite (scan_from_recognised lines initial).
Qed.

(** *** A header line as a cut point *)

Lemma step_with_closed closed st line :
  step (with_closed closed st) line = with_closed closed (step st line).
Proof.
  unfold step.
  destruct (epic_match line) as [m|].
  { unfold open_sprint, with_closed, sprints_with_current.
    cbn [current_sprint sprints current_microversion].
    destruct (current_sprint st); [rewrite app_assoc|]; reflexivity. }
  destruct (sprint_match line) as [m|].
  { unfold open_sprint, with_closed, sprints_with_current.
    cbn [current_sprint sprints current_microversion].
    destruct (current_sprint st); [rewrite app_assoc|]; reflexivity. }
  cbn [with_closed current_sprint current_microversion].
  destruct (microversion_match line), (current_sprint st);
    try reflexivity;
    destruct (task_match line), (current_microversion st); reflexivity.
Qed.

Lemma scan_from_with_closed closed lines : forall st,
  scan_from (with_closed closed st) lines
  = with_closed closed (scan_from st lines).
Proof.
  induction lines as [|l lines IH]; intros st; [reflexivity|].
  rewrite !scan_from_cons, step_with_closed. apply IH.
Qed.

Lemma finish_with_closed closed st :
  finish (with_closed closed st) = closed ++ finish st.
Proof.
  unfold finish, with_closed. cbn [current_sprint sprints current_microversion].
  destruct (current_microversion st), (current_sprint st);
    rewrite ?app_assoc, ?app_nil_r; reflexivity.
Qed.

Lemma open_sprint_with_closed st t :
  open_sprint st t
  = with_closed (sprints_with_current st) (open_sprint initial t).
Proof.
  unfold open_sprint, with_closed.
  cbn [sprints current_sprint current_microversion initial sprints_with_current].
  rewrite app_nil_r. reflexivity.
Qed.

Lemma scan_header (h t : str) (body : list str) :
  header_title h = Some t ->
  scan (h :: body) = scan_from (open_sprint initial t) body.
Proof.
  intros H. unfold scan. cbn [fold_left].
  rewrite (@header_title_step initial h t H). reflexivity.
Qed.

Lemma cut_at_header (before after : list str) (h t : str) :
  header_title h = Some t ->
  parse_lines (before ++ h :: after)
  = sprints_with_current (scan before) ++ parse_lines (h :: after).
Proof.
  intros H. unfold parse_lines. rewrite scan_app, scan_from_cons.
  assert (Hr : scan (h :: after) = scan_from (open_sprint initial t) after).
  { unfold scan. cbn [fold_left].
    rewrite (@header_title_step initial h t H). reflexivity. }
  rewrite Hr, (@header_title_step _ h t H).
  rewrite (open_sprint_with_closed (scan before) t).
  rewrite scan_from_with_closed, finish_with_closed. reflexivity.
Qed.

(** X4: an epic or sprint header cuts the document in two: the parse of
    the whole is the sprints the scan had closed before the header,
    then the sprint that was open at the header, if any, as it stood
    there (without the microversion that was open), then the parse of
    the document that starts at the header.  Nothing before a header
    reaches the entries after it. *)
Theorem header_is_a_cut_point (before after : list str) (h t : str) :
  header_title h = Some t ->
  parse_lines (before ++ h :: after)
  = sprints (scan before)
    ++ match current_sprint (scan before) with
       | Some sp => [sp]
       | None => []
       end
    ++ parse_lines (h :: after).
Proof.
  intros H. unfold parse_lines. rewrite scan_app, scan_from_cons.
  rewrite (@scan_header h t after H), (@header_title_step _ h t H).
  rewrite (open_sprint_with_closed (scan before) t).
  rewrite scan_from_with_closed, finish_with_closed.
  unfold sprints_with_current.
  destruct (current_sprint (scan before));
    rewrite <- ?app_assoc, ?app_nil_r; reflexivity.
Qed.

Lemma header_is_a_cut_point_witness :
  parse_lines ([lit "### **Sprint 1: Alpha**";
                lit "##### **v0.1.0.0 - Setup**"]
               ++ lit "### **Sprint 2: Beta**"
               :: [lit "##### **v0.2.0.0 - Next**"])
  = sprints (scan [lit "### **Sprint 1: Alpha**";
                   lit "##### **v0.1.0.0 - Setup**"])
    ++ match current_sprint (scan [lit "### **Sprint 1: Alpha**";
                                   lit "##### **v0.1.0.0 - Setup**"]) with
       | Some sp => [sp]
       | None => []
       end
    ++ parse_lines (lit "### **Sprint 2: Beta**"
                    :: [lit "##### **v0.2.0.0 - Next**"]).
Proof.
  apply (@header_is_a_cut_point
           [lit "### **Sprint 1: Alpha**"; lit "##### **v0.1.0.0 - Setup**"]
           [lit "##### **v0.2.0.0 - Next**"]
           (lit "### **Sprint 2: Beta**") (lit "Sprint 2: Beta")).
  vm_compute. reflexivity.
Defined.

(** *** Task lines under a microversion *)

Lemma task_of_line_match line m :
  task_match line = Some m -> task_of_line line = task_of_match m.
Proof. intros H. unfold task_of_line. now rewrite H. Qed.

(** X5: a run of task lines met while a microversion is open adds one
    task per line to that microversion, in the order of the lines and
    without dropping repeated identifiers, and touches nothing else. *)
Theorem task_lines_append_in_order
        (lines : list str) (st : State) (mv : Microversion) :
  current_microversion st = Some mv ->
  Forall (fun l => matched (task_match l) = true) lines ->
  scan_from st lines
  = {| sprints := sprints st;
       current_sprint := current_sprint st;
       current_microversion :=
         Some {| mv_title := mv_title mv;
                 mv_tasks := mv_tasks mv ++ map task_of_line lines |} |}.
Proof.
  revert st mv. induction lines as [|l lines IH]; intros st mv Hmv Hall.
  - cbn [scan_from fold_left map]. rewrite app_nil_r.
    destruct st, mv. simpl in Hmv. now rewrite Hmv.
  - inversion Hall as [|? ? Hl Hrest]; subst.
    destruct (task_match l) as [m|] eqn:E; [|discriminate].
    rewrite scan_from_cons, (@step_task st l m E), Hmv.
    rewrite (IH (add_task st mv m) (append_task mv (task_of_match m)) eq_refl Hrest).
    cbn [add_task append_task sprints current_sprint mv_title mv_tasks map].
    rewrite (@task_of_line_match l m E), <- app_assoc. reflexivity.
Qed.

Lemma task_lines_append_in_order_witness :
  scan_from (scan [lit "### **Sprint 1: Bar**";
                   lit "##### **v0.1.0.0 - Setup**"])
            [lit "- [x] **T1.1**: Do thing"; lit "- [ ] **T1.1**: Do thing"]
  = {| sprints := sprints (scan [lit "### **Sprint 1: Bar**";
                                 lit "##### **v0.1.0.0 - Setup**"]);
       current_sprint :=
         current_sprint (scan [lit "### **Sprint 1: Bar**";
                               lit "##### **v0.1.0.0 - Setup**"]);
       current_microversion :=
         Some {| mv_title :=
                   mv_title {| mv_title := lit "v0.1.0.0 - Setup";
                               mv_tasks := [] |};
                 mv_tasks :=
                   mv_tasks {| mv_title := lit "v0.1.0.0 - Setup";
                               mv_tasks := [] |}
                   ++ map task_of_line
                          [lit "- [x] **T1.1**: Do thing";
                           lit "- [ ] **T1.1**: Do thing"] |} |}.
Proof.
  apply (@task_lines_append_in_order
           [lit "- [x] **T1.1**: Do thing"; lit "- [ ] **T1.1**: Do thing"]
           (scan [lit "### **Sprint 1: Bar**";
                  lit "##### **v0.1.0.0 - Setup**"])
           {| mv_title := lit "v0.1.0.0 - Setup"; mv_tasks := [] |}).
  - vm_compute. reflexivity.
  - repeat constructor.
Defined.

(** *** The microversions of a sprint *)

Lemma microversion_title_match line m :
  microversion_match line = Some m ->
  microversion_title line
  = Some (lit "v" ++ group m 1 ++ lit " - " ++ strip (group m 2)).
Proof. intros H. unfold microversion_title. now rewrite H. Qed.

Lemma task_line_no_microversion_title line m :
  task_match line = Some m -> microversion_title line = None.
Proof.
  intros H. unfold microversion_title.
  destruct (microversion_match line) eqn:E; [|reflexivity].
  exfalso. eapply microversion_not_task; eauto.
Qed.

(** The lines between two headers: the scan keeps the closed sprints and
    the title of the open one, and each microversion header adds one
    microversion to the open sprint, the newest one being the open
    microversion. *)
Lemma body_scan (body : list str) : forall st sp,
  current_sprint st = Some sp ->
  (current_microversion st = None -> sprint_microversions sp = []) ->
  Forall (fun l => header_title l = None) body ->
  exists sp',
    current_sprint (scan_from st body) = Some sp'
    /\ sprints (scan_from st body) = sprints st
    /\ sprint_title sp' = sprint_title sp
    /\ sprint_tasks sp' = sprint_tasks sp
    /\ (current_microversion (scan_from st body) = None ->
        sprint_microversions sp' = [])
    /\ map mv_title (open_microversions (scan_from st body))
       = map mv_title (open_microversions st) ++ microversion_titles body.
Proof.
  induction body as [|l body IH]; intros st sp Hs Hnone Hall.
  - exists sp. cbn [scan_from fold_left microversion_titles flat_map].
    rewrite app_nil_r. auto 6.
  - inversion Hall as [|? ? Hl Hrest]; subst.
    rewrite scan_from_cons. cbn [microversion_titles flat_map].
    destruct (@non_header_step st l Hl)
      as [[E Hno]|[(sp0 & m & Hs0 & Hm & E)|(mv & m & Hmv & Hm & E)]];
      rewrite E.
    + assert (Hnot : microversion_title l = None).
      { destruct Hno as [Hno|Hno]; [|congruence].
        unfold microversion_title. now rewrite Hno. }
      rewrite Hnot. cbn [app]. apply IH; assumption.
    + rewrite Hs in Hs0. injection Hs0 as <-.
      rewrite (@microversion_title_match l m Hm).
      set (fresh := {| mv_title :=
                         lit "v" ++ group m 1 ++ lit " - " ++ strip (group m 2);
                       mv_tasks := [] |}).
      destruct (IH (open_microversion st sp m)
                   (match current_microversion st with
                    | Some mv => append_microversion sp mv
                    | None => sp
                    end) eq_refl)
        as (sp' & Hs' & Hsp & Ht & Hk & Hn & Hm').
      * cbn [open_microversion current_microversion]. discriminate.
      * exact Hrest.
      * exists sp'. split; [exact Hs'|]. split; [exact Hsp|].
        split; [rewrite Ht; destruct (current_microversion st); reflexivity|].
        split; [rewrite Hk; destruct (current_microversion st); reflexivity|].
        split; [exact Hn|]. rewrite Hm'.
        unfold open_microversions at 1 2.
        cbn [open_microversion current_sprint current_microversion].
        rewrite Hs.
        destruct (current_microversion st) as [mv|] eqn:Ecm.
        -- cbn [append_microversion sprint_microversions].
           rewrite !map_app, <- !app_assoc. reflexivity.
        -- rewrite (Hnone eq_refl). cbn [app map]. reflexivity.
    + rewrite (@task_line_no_microversion_title l m Hm). cbn [app].
      destruct (IH (add_task st mv m) sp Hs)
        as (sp' & Hs' & Hsp & Ht & Hk & Hn & Hm').
      * cbn [add_task current_microversion]. discriminate.
      * exact Hrest.
      * exists sp'. repeat (split; [assumption|]). rewrite Hm'.
        unfold open_microversions at 1 2.
        cbn [add_task current_sprint current_microversion].
        rewrite Hs, Hmv, !map_app. reflexivity.
Qed.


(** The state of the scan at the end of a header and the lines that
    follow it up to the next header. *)
Lemma segment_scan (h t : str) (body : list str) :
  header_title h = Some t ->
  Forall (fun l => header_title l = None) body ->
  exists mvs,
    sprints (scan (h :: body)) = []
    /\ current_sprint (scan (h :: body))
       = Some {| sprint_title := t; sprint_microversions := mvs;
                 sprint_tasks := None |}
    /\ (current_microversion (scan (h :: body)) = None -> mvs = [])
    /\ map mv_title
           (mvs ++ match current_microversion (scan (h :: body)) with
                   | Some mv => [mv]
                   | None => []
                   end)
       = microversion_titles body.
Proof.
  intros H Hall. rewrite (@scan_header h t body H).
  destruct (@body_scan body (open_sprint initial t) (new_sprint t) eq_refl
                       (fun _ => eq_refl) Hall)
    as (sp' & Hs' & Hsp & Ht & Hk & Hn & Hm).
  destruct sp' as [t' mvs k']. cbn in Ht, Hk, Hn. subst t' k'.
  exists mvs. split; [exact Hsp|]. split; [exact Hs'|]. split; [exact Hn|].
  unfold open_microversions in Hm. rewrite Hs' in Hm.
  cbn [sprint_microversions] in Hm. exact Hm.
Qed.

(** X6: in a document that is one header followed by lines that are not
    headers, the single entry holds one microversion per microversion
    header line, in the order of the lines and under the title
    v<version> - <stripped title> of each. *)
Theorem last_sprint_keeps_every_microversion (h t : str) (body : list str) :
  header_title h = Some t ->
  Forall (fun l => header_title l = None) body ->
  exists mvs,
    parse_lines (h :: body)
    = [ {| sprint_title := t; sprint_microversions := mvs;
           sprint_tasks := None |} ]
    /\ map mv_title mvs = microversion_titles body.
Proof.
  intros H Hall.
  destruct (@segment_scan h t body H Hall) as (mvs & Hsp & Hs & Hn & Hm).
  unfold parse_lines, finish. rewrite Hs, Hsp.
  destruct (current_microversion (scan (h :: body))) as [mv|].
  - exists (mvs ++ [mv]). split; [reflexivity | exact Hm].
  - exists mvs. rewrite app_nil_r in Hm. split; [reflexivity | exact Hm].
Qed.

Lemma last_sprint_keeps_every_microversion_witness :
  exists mvs,
    parse_lines (lit "### **Sprint 1: Bar**"
                 :: [lit "##### **v0.1.0.0 - Setup**";
                     lit "##### **v0.1.0.1 - More**"])
    = [ {| sprint_title := lit "Sprint 1: Bar"; sprint_microversions := mvs;
           sprint_tasks := None |} ]
    /\ map mv_title mvs
       = microversion_titles [lit "##### **v0.1.0.0 - Setup**";
                              lit "##### **v0.1.0.1 - More**"].
Proof.
  apply (@last_sprint_keeps_every_microversion
           (lit "### **Sprint 1: Bar**") (lit "Sprint 1: Bar")
           [lit "##### **v0.1.0.0 - Setup**"; lit "##### **v0.1.0.1 - More**"]).
  - vm_compute. reflexivity.
  - repeat constructor.
Defined.

(** X7: as the code stands, an entry that is closed by a later header
    holds the microversions of its lines except the last one: the
    microversion still open when the next header arrives is not
    appended.  The entries from that header on are those of the
    document that starts there. *)
Theorem closed_sprint_keeps_all_but_last_microversion
        (h t h' t' : str) (body after : list str) :
  header_title h = Some t ->
  Forall (fun l => header_title l = None) body ->
  header_title h' = Some t' ->
  exists mvs,
    parse_lines (h :: body ++ h' :: after)
    = {| sprint_title := t; sprint_microversions := mvs;
         sprint_tasks := None |}
      :: parse_lines (h' :: after)
    /\ map mv_title mvs = removelast (microversion_titles body).
Proof.
  intros H Hall H'.
  destruct (@segment_scan h t body H Hall) as (mvs & Hsp & Hs & Hn & Hm).
  exists mvs. split.
  - change (h :: body ++ h' :: after) with ((h :: body) ++ h' :: after).
    rewrite (@cut_at_header (h :: body) after h' t' H').
    unfold sprints_with_current. rewrite Hs, Hsp. reflexivity.
  - rewrite <- Hm.
    destruct (current_microversion (scan (h :: body))) as [mv|].
    + rewrite map_app. cbn [map]. now rewrite removelast_last.
    + rewrite (Hn eq_refl). reflexivity.
Qed.

Lemma closed_sprint_keeps_all_but_last_microversion_witness :
  exists mvs,
    parse_lines (lit "### **Sprint 1: Alpha**"
                 :: [lit "##### **v0.1.0.0 - Setup**";
                     lit "##### **v0.1.0.1 - More**"]
                 ++ lit "### **Sprint 2: Beta**" :: [])
    = {| sprint_title := lit "Sprint 1: Alpha"; sprint_microversions := mvs;
         sprint_tasks := None |}
      :: parse_lines (lit "### **Sprint 2: Beta**" :: [])
    /\ map mv_title mvs
       = removelast (microversion_titles [lit "##### **v0.1.0.0 - Setup**";
                                          lit "##### **v0.1.0.1 - More**"]).
Proof.
  apply (@closed_sprint_keeps_all_but_last_microversion
           (lit "### **Sprint 1: Alpha**") (lit "Sprint 1: Alpha")
           (lit "### **Sprint 2: Beta**") (lit "Sprint 2: Beta")
           [lit "##### **v0.1.0.0 - Setup**"; lit "##### **v0.1.0.1 - More**"]
           []).
  - vm_compute. reflexivity.
  - repeat constructor.
  - vm_compute. reflexivity.
Defined.

(** *** The entries carry no direct tasks *)

Lemma no_tasks_key_step st line :
  Forall no_tasks_key (sprints_with_current st) ->
  Forall no_tasks_key (sprints_with_current (step st line)).
Proof.
  intros H.
  assert (Hcur : forall sp, current_sprint st = Some sp -> no_tasks_key sp).
  { intros sp Hs. unfold sprints_with_current in H. rewrite Hs in H.
    apply Forall_app in H. destruct H as [_ H]. now inversion H. }
  assert (Hclosed : Forall no_tasks_key (sprints st)).
  { unfold sprints_with_current in H. destruct (current_sprint st).
    - now apply Forall_app in H.
    - exact H. }
  destruct (step_cases st line) as [t|sp m Hs|mv m Hm|].
  - unfold sprints_with_current at 1. cbn [open_sprint current_sprint sprints].
    apply Forall_app. split; [exact H|]. repeat constructor.
  - unfold sprints_with_current, open_microversion. cbn [current_sprint sprints].
    apply Forall_app. split; [exact Hclosed|]. constructor; [|constructor].
    specialize (Hcur sp Hs). destruct (current_microversion st); exact Hcur.
  - exact H.
  - exact H.
Qed.

Lemma no_tasks_key_scan lines : forall st,
  Forall no_tasks_key (sprints_with_current st) ->
  Forall no_tasks_key (sprints_with_current (scan_from st lines)).
Proof.
  induction lines as [|l lines IH]; intros st H; [exact H|].
  rewrite scan_from_cons. apply IH, no_tasks_key_step, H.
Qed.

(** X8: no entry of the parser's result has a "tasks" key, whatever the
    document: the renderer's branch for tasks directly under a sprint is
    never taken on a parsed plan. *)
Theorem parser_sets_no_tasks_key (md : str) :
  Forall (fun sp => sprint_tasks sp = None) (parse_markdown md).
Proof.
  unfold parse_markdown, parse_lines.
  pose proof (@no_tasks_key_scan (splitlines md) initial (Forall_nil _)) as H.
  change (scan_from initial (splitlines md)) with (scan (splitlines md)) in H.
  unfold finish. unfold sprints_with_current in H.
  destruct (current_sprint (scan (splitlines md))) as [sp|];
    destruct (current_microversion (scan (splitlines md))) as [mv|];
    try exact H.
  apply Forall_app in H. destruct H as [Hc Hs].
  apply Forall_app. split; [exact Hc|].
  constructor; [|constructor]. now inversion Hs.
Qed.

(** *** Documents and their lines *)

Lemma not_linebreak_not_cr c : is_linebreak c = false -> N.eqb c 13 = false.
Proof.
  intros H. destruct (N.eqb_spec c 13) as [->|]; [discriminate|reflexivity].
Qed.

Lemma splitlines_from_line (l : str) : forall cur rest,
  no_linebreak l ->
  splitlines_from cur (l ++ rest) = splitlines_from (rev l ++ cur) rest.
Proof.
  induction l as [|c l IH]; intros cur rest H; [reflexivity|].
  inversion H as [|? ? Hc Hl]; subst.
  cbn [app splitlines_from]. rewrite (not_linebreak_not_cr c Hc), Hc.
  rewrite (IH (c :: cur) rest Hl). cbn [rev]. now rewrite <- app_assoc.
Qed.

Lemma splitlines_from_separator (sep : str) cur rest :
  sep = [10%N] \/ sep = [13%N; 10%N] ->
  splitlines_from cur (sep ++ rest) = rev cur :: splitlines_from [] rest.
Proof. intros [->| ->]; reflexivity. Qed.

Lemma splitlines_single (l : str) :
  no_linebreak l ->
  splitlines l = match l with [] => [] | _ => [l] end.
Proof.
  intros H. unfold splitlines.
  rewrite <- (app_nil_r l) at 1. rewrite (splitlines_from_line [] [] H).
  rewrite app_nil_r. cbn [splitlines_from].
  destruct l as [|c l]; [reflexivity|].
  destruct (rev (c :: l)) eqn:E.
  - apply (f_equal (@length _)) in E. rewrite length_rev in E. discriminate.
  - rewrite <- E, rev_involutive. reflexivity.
Qed.

(** Splitting a joined document gives the lines back, up to an empty
    last line. *)
Lemma splitlines_unlines (sep : str) (lines : list str) :
  sep = [10%N] \/ sep = [13%N; 10%N] ->
  Forall no_linebreak lines ->
  splitlines (unlines sep lines) = lines
  \/ exists ls, lines = ls ++ [[]] /\ splitlines (unlines sep lines) = ls.
Proof.
  intros Hsep Hall. induction Hall as [|l ls Hl Hls IH]; [now left|].
  destruct ls as [|l2 ls].
  - cbn [unlines]. rewrite (splitlines_single Hl).
    destruct l; [right; exists []; auto | now left].
  - assert (Hcons : splitlines (unlines sep (l :: l2 :: ls))
                    = l :: splitlines (unlines sep (l2 :: ls))).
    { change (unlines sep (l :: l2 :: ls))
        with (l ++ sep ++ unlines sep (l2 :: ls)).
      unfold splitlines. rewrite (splitlines_from_line [] _ Hl).
      rewrite (splitlines_from_separator _ _ Hsep).
      rewrite app_nil_r, rev_involutive. reflexivity. }
    rewrite Hcons. destruct IH as [->|(ls' & Hls' & ->)]; [now left|].
    right. exists (l :: ls'). rewrite Hls'. auto.
Qed.

Lemma empty_line_step st : step st [] = st.
Proof. apply unrecognised_step. reflexivity. Qed.

(** X9: a list of lines joined by line feeds, or by carriage return and
    line feed, parses as that list of lines: the two line-ending styles
    give the same result, and what is shown of [parse_lines] holds of
    the documents written that way. *)
Theorem joined_lines_parse_as_lines (sep : str) (lines : list str) :
  sep = [10%N] \/ sep = [13%N; 10%N] ->
  Forall no_linebreak lines ->
  parse_markdown (unlines sep lines) = parse_lines lines.
Proof.
  intros Hsep Hall. unfold parse_markdown.
  destruct (splitlines_unlines Hsep Hall) as [->|(ls & -> & ->)];
    [reflexivity|].
  unfold parse_lines. rewrite scan_app. cbn [scan_from fold_left].
  now rewrite empty_line_step.
Qed.

Lemma joined_lines_parse_as_lines_witness :
  parse_markdown
    (unlines [13%N; 10%N]
             [lit "### **Sprint 1: Bar**"; lit "##### **v0.1.0.0 - Setup**";
              lit "- [x] **T1.1**: Do thing"; []])
  = parse_lines [lit "### **Sprint 1: Bar**"; lit "##### **v0.1.0.0 - Setup**";
                 lit "- [x] **T1.1**: Do thing"; []].
Proof.
  apply (@joined_lines_parse_as_lines
           [13%N; 10%N]
           [lit "### **Sprint 1: Bar**"; lit "##### **v0.1.0.0 - Setup**";
            lit "- [x] **T1.1**: Do thing"; []]).
  - right. reflexivity.
  - repeat constructor.
Defined.

End ParserMore.

(* ================================================================== *)
(** ** Further properties of the renderer *)

Module RendererMore.

Import FloatFacts RendererSpec.

Local Open Scope string_scope.
Local Open Scope list_scope.

(** *** The two ends of the scale *)

Lemma round_half_even_integer (n : Z) :
  Float.round_half_even (inject_Z n) = n.
Proof.
  unfold Float.round_half_even. rewrite Qfloor_Z.
  assert (E : (inject_Z n - inject_Z n == 0)%Q) by ring.
  rewrite (Qcompare_comp _ _ E _ _ (Qeq_refl (1 # 2))). reflexivity.
Qed.

(** The quotient of a positive count by itself is the float 1. *)
Lemma int_truediv_same (n : nat) :
  (0 < n)%nat ->
  Float.int_truediv n n = (inject_Z (2 ^ 52) / inject_Z (2 ^ 52))%Q.
Proof.
  intros H. destruct n as [|n]; [lia|].
  unfold Float.int_truediv.
  set (p := Pos.of_succ_nat n).
  assert (Hx : (inject_Z (Z.of_nat (S n)) / inject_Z (Z.of_nat (S n)))%Q
               = (Zpos (p * 1) # p)%Q).
  { cbn. reflexivity. }
  rewrite Hx, Pos.mul_1_r. unfold Float.round64.
  assert (Hz : Qeq_bool (Zpos p # p) 0 = false) by reflexivity.
  assert (Hi : Float.ilog2 (Qabs (Zpos p # p)) = 0%Z).
  { unfold Float.ilog2. cbn [Qabs Qnum Qden Z.abs]. rewrite Z.sub_diag.
    assert (Hle : Qle_bool (Float.pow2 0) (Zpos p # p) = true).
    { apply Qle_bool_iff. unfold Qle. cbn. lia. }
    now rewrite Hle. }
  rewrite Hz, Hi.
  assert (Hs : Float.pow2 (52 - 0) = inject_Z (2 ^ 52)) by reflexivity.
  rewrite Hs.
  assert (Hm : ((Zpos p # p) * inject_Z (2 ^ 52) == inject_Z (2 ^ 52))%Q).
  { unfold Qeq. cbn. lia. }
  rewrite (round_half_even_comp Hm), round_half_even_integer. reflexivity.
Qed.

(** The quotient of zero by a count is the float 0. *)
Lemma int_truediv_zero (n : nat) : Float.int_truediv 0 n = 0%Q.
Proof. reflexivity. Qed.

Lemma progress_full (n : nat) :
  (0 < n)%nat ->
  (number_value (progress n n) == inject_Z 100)%Q
  /\ format_1f (progress n n) = lit "100.0".
Proof.
  intros H. unfold progress.
  destruct (Nat.ltb_spec 0 n) as [_|]; [|lia].
  rewrite (int_truediv_same H). split; vm_compute; reflexivity.
Qed.

Lemma count_complete_all (tasks : list Task) :
  forallb is_complete tasks = true -> count_complete tasks = length tasks.
Proof.
  unfold count_complete. induction tasks as [|t tasks IH]; [reflexivity|].
  cbn [forallb filter]. intros H. apply andb_true_iff in H.
  destruct H as [Ht Hr]. rewrite Ht. cbn [length]. now rewrite IH.
Qed.

Lemma count_complete_none (tasks : list Task) :
  existsb is_complete tasks = false -> count_complete tasks = 0.
Proof.
  unfold count_complete. induction tasks as [|t tasks IH]; [reflexivity|].
  cbn [existsb filter]. intros H. apply orb_false_iff in H.
  destruct H as [Ht Hr]. rewrite Ht. now apply IH.
Qed.

(** X10: when every task of a non-empty list is complete, the progress
    value is exactly 100 and its label reads 100.0: the two roundings of
    the float computation lose nothing at the top of the scale. *)
Theorem all_complete_is_100_percent (tasks : list Task) :
  tasks <> [] ->
  forallb is_complete tasks = true ->
  (number_value (progress (count_complete tasks) (length tasks))
   == inject_Z 100)%Q
  /\ format_1f (progress (count_complete tasks) (length tasks))
     = lit "100.0".
Proof.
  intros Hne H.
  assert (Hlen : (0 < length tasks)%nat).
  { destruct tasks; [contradiction | simpl; lia]. }
  rewrite (count_complete_all tasks H). apply progress_full, Hlen.
Qed.

Lemma all_complete_is_100_percent_witness :
  (number_value (progress (count_complete complete_tasks_sample)
                          (length complete_tasks_sample))
   == inject_Z 100)%Q
  /\ format_1f (progress (count_complete complete_tasks_sample)
                         (length complete_tasks_sample))
     = lit "100.0".
Proof.
  apply (@all_complete_is_100_percent complete_tasks_sample).
  - discriminate.
  - reflexivity.
Defined.

(** X11: when no task of a non-empty list is complete, the progress
    value is the float 0 and its label reads 0.0. *)
Theorem none_complete_is_0_percent (tasks : list Task) :
  tasks <> [] ->
  existsb is_complete tasks = false ->
  progress (count_complete tasks) (length tasks) = Float 0
  /\ format_1f (progress (count_complete tasks) (length tasks)) = lit "0.0".
Proof.
  intros Hne H.
  assert (Hlen : (0 < length tasks)%nat).
  { destruct tasks; [contradiction | simpl; lia]. }
  rewrite (count_complete_none tasks H). unfold progress.
  destruct (Nat.ltb_spec 0 (length tasks)) as [_|]; [|lia].
  rewrite int_truediv_zero. split; vm_compute; reflexivity.
Qed.

Lemma none_complete_is_0_percent_witness :
  progress (count_complete open_tasks_sample) (length open_tasks_sample)
  = Float 0
  /\ format_1f (progress (count_complete open_tasks_sample)
                         (length open_tasks_sample)) = lit "0.0".
Proof.
  apply (@none_complete_is_0_percent open_tasks_sample).
  - discriminate.
  - reflexivity.
Defined.

Section Report.

Variable relpath : str -> str -> str.
Variable dirname : str -> str.
Variable float_repr : Q -> str.

#[local] Abbreviation render_sprint := (render_sprint float_repr).
#[local] Abbreviation sprint_totals := (sprint_totals float_repr).
#[local] Abbreviation sprint_summary := (sprint_summary float_repr).
#[local] Abbreviation render_microversion := (render_microversion float_repr).
#[local] Abbreviation page_head := (page_head relpath dirname).
#[local] Abbreviation generate_html_report :=
  (generate_html_report relpath dirname float_repr).

(** *** The page as a sequence of sections *)

(** X12: the page is its head, then one section per entry in the order
    of the list, then its foot, and the section of an entry is the text
    the renderer produces for that entry alone: no entry changes the
    section of another. *)
Theorem page_is_head_sections_foot
        (sprints : list Sprint) (output_path css_path now : str) :
  generate_html_report sprints output_path css_path now
  = page_head output_path css_path now
    ++ concat (map (render_sprint []) sprints)
    ++ page_foot.
Proof.
  unfold Renderer.generate_html_report.
  rewrite (fold_sprints float_repr), <- app_assoc. reflexivity.
Qed.

(** *** Entries without tasks *)

(** X13: a microversion without tasks is rendered with a bar of width 0
    labelled 0/0 (0.0%), the int 0 standing in for the quotient that is
    not formed, and with the notice in place of the list. *)
Theorem empty_microversion_block (acc : Totals) (mv : Microversion) :
  mv_tasks mv = [] ->
  render_microversion acc mv
  = {| html_content :=
         html_content acc
         ++ microversion_open mv
         ++ lit "    <div class=" ++ dq ++ lit "progress-bar-container" ++ dq
         ++ lit ">" ++ nl
         ++ lit "      <div class=" ++ dq ++ lit "progress-bar" ++ dq
         ++ lit " style=" ++ dq ++ lit "width: 0%;" ++ dq
         ++ lit ">0/0 (0.0%)</div>" ++ nl
         ++ lit "    </div>" ++ nl
         ++ lit "    <p>No tasks defined for this microversion.</p>" ++ nl
         ++ lit "  </div>" ++ nl;
       total_sprint_tasks := total_sprint_tasks acc;
       completed_sprint_tasks := completed_sprint_tasks acc |}.
Proof.
  intros H. unfold Renderer.render_microversion. rewrite H.
  cbn [length count_complete filter]. rewrite !Nat.add_0_r.
  f_equal.
Qed.

Lemma render_direct_tasks_falsy (acc : Totals) (sp : Sprint) :
  sprint_tasks sp = None \/ sprint_tasks sp = Some [] ->
  render_direct_tasks acc sp = acc.
Proof.
  intros [H|H]; unfold render_direct_tasks; rewrite H; reflexivity.
Qed.

(** X14: an entry with no microversion and no task of its own, such as
    an epic that only precedes its sprints, is not skipped: it is
    rendered as a section that holds its heading and nothing else, with
    no summary bar. *)
Theorem entry_without_microversions_is_a_bare_section
        (html : str) (sp : Sprint) :
  sprint_microversions sp = [] ->
  sprint_tasks sp = None \/ sprint_tasks sp = Some [] ->
  render_sprint html sp
  = html
    ++ lit "<section class=" ++ dq ++ lit "sprint" ++ dq ++ lit ">" ++ nl
    ++ lit "  <h2>" ++ sprint_title sp ++ lit "</h2>" ++ nl
    ++ lit "</section>" ++ nl.
Proof.
  intros Hm Ht.
  unfold Renderer.render_sprint, Renderer.sprint_totals.
  rewrite Hm, (@render_direct_tasks_falsy _ sp Ht). cbn [fold_left].
  cbn [html_content total_sprint_tasks Nat.ltb Nat.leb].
  unfold sprint_open, sprint_close. rewrite <- !app_assoc. reflexivity.
Qed.

(** X15: an entry that has tasks of its own (a non-empty "tasks" list)
    counts them with those of its microversions in both totals, the
    completed total counting the tasks whose status is Complete; it
    shows them in a list of one item per task placed before its
    microversions, and always ends with the summary "Sprint Progress:"
    and the indicator of the two totals. *)
Theorem entry_with_direct_tasks
        (html : str) (sp : Sprint) (t : Task) (ts : list Task) :
  sprint_tasks sp = Some (t :: ts) ->
  total_sprint_tasks (sprint_totals html sp)
  = length (t :: ts) + sum_over (@length Task) (sprint_microversions sp)
  /\ completed_sprint_tasks (sprint_totals html sp)
     = complete_among (t :: ts)
       + sum_over complete_among (sprint_microversions sp)
  /\ render_sprint html sp
     = html
       ++ lit "<section class=" ++ dq ++ lit "sprint" ++ dq ++ lit ">" ++ nl
       ++ lit "  <h2>" ++ sprint_title sp ++ lit "</h2>" ++ nl
       ++ lit "  <ul>" ++ nl
       ++ concat (map list_item (t :: ts))
       ++ lit "  </ul>" ++ nl
       ++ concat (map (microversion_text float_repr) (sprint_microversions sp))
       ++ lit "  <div class=" ++ dq
       ++ lit "sprint-summary progress-bar-container" ++ dq ++ lit ">" ++ nl
       ++ lit "      <strong>Sprint Progress:</strong> "
       ++ lit "<div class=" ++ dq ++ lit "progress-bar" ++ dq
       ++ lit " style=" ++ dq ++ lit "width: "
       ++ indicator_width float_repr
            (complete_among (t :: ts)
             + sum_over complete_among (sprint_microversions sp))
            (length (t :: ts)
             + sum_over (@length Task) (sprint_microversions sp))
       ++ lit "%;" ++ dq ++ lit ">"
       ++ of_nat (complete_among (t :: ts)
                  + sum_over complete_among (sprint_microversions sp))
       ++ lit "/"
       ++ of_nat (length (t :: ts)
                  + sum_over (@length Task) (sprint_microversions sp))
       ++ lit " ("
       ++ one_decimal
            (round1
               (Float.round64
                  (Float.round64
                     (inject_Z
                        (Z.of_nat
                           (complete_among (t :: ts)
                            + sum_over complete_among
                                       (sprint_microversions sp)))
                      / inject_Z
                          (Z.of_nat
                             (length (t :: ts)
                              + sum_over (@length Task)
                                         (sprint_microversions sp))))
                   * inject_Z 100)))
       ++ lit "%)</div>" ++ nl
       ++ lit "  </div>" ++ nl
       ++ lit "</section>" ++ nl.
Proof.
  intros H.
  assert (E : sprint_totals html sp =
    {| html_content :=
         html ++ sprint_open sp
         ++ lit "  <ul>" ++ nl ++ task_items (t :: ts) ++ lit "  </ul>" ++ nl
         ++ concat (map (microversion_block float_repr) (sprint_microversions sp));
       total_sprint_tasks :=
         length (t :: ts) + sum_over (@length Task) (sprint_microversions sp);
       completed_sprint_tasks :=
         count_complete (t :: ts)
         + sum_over count_complete (sprint_microversions sp) |}).
  { unfold Renderer.sprint_totals, render_direct_tasks.
    rewrite H, (fold_microversions float_repr).
    cbn [html_content total_sprint_tasks completed_sprint_tasks Nat.add].
    rewrite <- !app_assoc. reflexivity. }
  unfold Renderer.render_sprint. rewrite E.
  cbn [html_content total_sprint_tasks completed_sprint_tasks].
  assert (Hle : count_complete (t :: ts)
                + sum_over count_complete (sprint_microversions sp)
                <= length (t :: ts)
                   + sum_over (@length Task) (sprint_microversions sp)).
  { pose proof (count_complete_le (t :: ts)).
    pose proof (sum_over_le (sprint_microversions sp)). lia. }
  unfold Renderer.sprint_summary.
  rewrite (progress_bar_indicator float_repr Hle).
  rewrite (sum_over_count_complete (sprint_microversions sp)),
    (count_complete_among (t :: ts)),
    (microversion_blocks_text float_repr (sprint_microversions sp)),
    (task_items_list_items (t :: ts)).
  split; [reflexivity|]. split; [reflexivity|].
  unfold sprint_open, sprint_close, indicator, indicator_label, percent_of.
  cbn [length Nat.add Nat.ltb Nat.leb number_value].
  rewrite <- !app_assoc. reflexivity.
Qed.

(** *** The report of a plan *)

Lemma render_sprint_starts_with_heading (sp : Sprint) :
  exists rest, render_sprint [] sp = sprint_open sp ++ rest.
Proof.
  unfold Renderer.render_sprint, Renderer.sprint_totals.
  rewrite (fold_microversions float_repr).
  destruct (direct_tasks_totals
              {| html_content := [] ++ sprint_open sp;
                 total_sprint_tasks := 0;
                 completed_sprint_tasks := 0 |} sp)
    as (text & n & c & _ & -> & _).
  cbn [html_content app]. rewrite <- !app_assoc. eauto.
Qed.

Lemma sections_follow_titles (sprints : list Sprint) :
  Forall2 (fun section title =>
             exists rest,
               section
               = lit "<section class=" ++ dq ++ lit "sprint" ++ dq
                 ++ lit ">" ++ nl
                 ++ lit "  <h2>" ++ title ++ lit "</h2>" ++ nl ++ rest)
          (map (render_sprint []) sprints) (map sprint_title sprints).
Proof.
  induction sprints as [|sp sprints IH]; cbn [map]; constructor; [|exact IH].
  destruct (render_sprint_starts_with_heading sp) as [rest ->].
  exists rest. unfold sprint_open. rewrite <- !app_assoc. reflexivity.
Qed.

(** X16: the report of a plan is the page head, one section per epic or
    sprint header line of the plan, and the page foot; the sections
    come in the order of the header lines and each begins with the
    heading that holds the title of its line.  A plan without header
    lines, the empty file among them, gives the head directly followed
    by the foot. *)
Theorem report_has_a_section_per_header
        (md_content output_html_path css_file_path now : str) :
  exists sections,
    report_of_markdown relpath dirname float_repr
                       md_content output_html_path css_file_path now
    = page_head output_html_path css_file_path now
      ++ concat sections ++ page_foot
    /\ Forall2 (fun section title =>
                  exists rest,
                    section
                    = lit "<section class=" ++ dq ++ lit "sprint" ++ dq
                      ++ lit ">" ++ nl
                      ++ lit "  <h2>" ++ title ++ lit "</h2>" ++ nl ++ rest)
               sections (header_titles (splitlines md_content)).
Proof.
  exists (map (render_sprint []) (parse_markdown md_content)). split.
  - unfold report_of_markdown, Renderer.generate_html_report.
    rewrite (fold_sprints float_repr), <- app_assoc. reflexivity.
  - rewrite <- (ParserMore.parse_lines_titles (splitlines md_content)).
    apply sections_follow_titles.
Qed.

End Report.

Lemma empty_microversion_block_witness :
  Renderer.render_microversion (fun _ => [])
    {| html_content := []; total_sprint_tasks := 2;
       completed_sprint_tasks := 1 |}
    {| mv_title := lit "v0.1.0.1 - Empty"; mv_tasks := [] |}
  = {| html_content :=
         html_content {| html_content := []; total_sprint_tasks := 2;
                         completed_sprint_tasks := 1 |}
         ++ microversion_open
              {| mv_title := lit "v0.1.0.1 - Empty"; mv_tasks := [] |}
         ++ lit "    <div class=" ++ dq ++ lit "progress-bar-container" ++ dq
         ++ lit ">" ++ nl
         ++ lit "      <div class=" ++ dq ++ lit "progress-bar" ++ dq
         ++ lit " style=" ++ dq ++ lit "width: 0%;" ++ dq
         ++ lit ">0/0 (0.0%)</div>" ++ nl
         ++ lit "    </div>" ++ nl
         ++ lit "    <p>No tasks defined for this microversion.</p>" ++ nl
         ++ lit "  </div>" ++ nl;
       total_sprint_tasks :=
         total_sprint_tasks {| html_content := []; total_sprint_tasks := 2;
                               completed_sprint_tasks := 1 |};
       completed_sprint_tasks :=
         completed_sprint_tasks {| html_content := []; total_sprint_tasks := 2;
                                   completed_sprint_tasks := 1 |} |}.
Proof.
  apply (@empty_microversion_block (fun _ => [])
           {| html_content := []; total_sprint_tasks := 2;
              completed_sprint_tasks := 1 |}
           {| mv_title := lit "v0.1.0.1 - Empty"; mv_tasks := [] |}).
  reflexivity.
Defined.

Lemma entry_without_microversions_is_a_bare_section_witness :
  Renderer.render_sprint (fun _ => []) [] (new_sprint (lit "Epic 1: Foo"))
  = []
    ++ lit "<section class=" ++ dq ++ lit "sprint" ++ dq ++ lit ">" ++ nl
    ++ lit "  <h2>" ++ sprint_title (new_sprint (lit "Epic 1: Foo"))
    ++ lit "</h2>" ++ nl
    ++ lit "</section>" ++ nl.
Proof.
  apply (@entry_without_microversions_is_a_bare_section
           (fun _ => []) [] (new_sprint (lit "Epic 1: Foo"))).
  - reflexivity.
  - left. reflexivity.
Defined.

Lemma entry_with_direct_tasks_witness :
  total_sprint_tasks
    (Renderer.sprint_totals (fun _ => lit "60.0") [] sprint_with_tasks_sample)
  = 5
  /\ completed_sprint_tasks
       (Renderer.sprint_totals (fun _ => lit "60.0") []
                               sprint_with_tasks_sample)
     = 3
  /\ exists section,
       Renderer.render_sprint (fun _ => lit "60.0") []
                              sprint_with_tasks_sample
       = lit "<section class=" ++ dq ++ lit "sprint" ++ dq ++ lit ">" ++ nl
         ++ lit "  <h2>Sprint 2: Beta</h2>" ++ nl
         ++ lit "  <ul>" ++ nl
         ++ lit "      <li class=" ++ dq ++ lit "task-open" ++ dq
         ++ lit "><strong>T2.1</strong>: Do thing</li>" ++ nl
         ++ lit "      <li class=" ++ dq ++ lit "task-open" ++ dq
         ++ lit "><strong>T2.2</strong>: Do more</li>" ++ nl
         ++ lit "  </ul>" ++ nl
         ++ section
       /\ section
          = microversion_text (fun _ => lit "60.0")
              {| mv_title := lit "v0.2.0.0 - Next";
                 mv_tasks := complete_tasks_sample |}
            ++ lit "  <div class=" ++ dq
            ++ lit "sprint-summary progress-bar-container" ++ dq
            ++ lit ">" ++ nl
            ++ lit "      <strong>Sprint Progress:</strong> "
            ++ lit "<div class=" ++ dq ++ lit "progress-bar" ++ dq
            ++ lit " style=" ++ dq ++ lit "width: 60.0%;" ++ dq
            ++ lit ">3/5 (60.0%)</div>" ++ nl
            ++ lit "  </div>" ++ nl
            ++ lit "</section>" ++ nl.
Proof.
  destruct (@entry_with_direct_tasks
              (fun _ => lit "60.0") [] sprint_with_tasks_sample
              {| task_id := lit "T2.1"; task_description := lit "Do thing";
                 task_status := Open |}
              [ {| task_id := lit "T2.2"; task_description := lit "Do more";
                   task_status := Open |} ] eq_refl)
    as (Ht & Hc & Hr).
  split; [exact Ht|]. split; [exact Hc|].
  eexists. split; [rewrite Hr; vm_compute; reflexivity|].
  vm_compute. reflexivity.
Defined.

End RendererMore.

(* ================================================================== *)
(** ** The texts the patterns capture *)

Module ShapeFacts.

Import ReFacts PatternFacts TaskFacts.

Section Loop.

Variable r1 : regex.
Variable greedy : bool.
Hypothesis body_sound : forall s g k c,
  run r1 s g k = Some c ->
  exists pre s' g',
    s = pre ++ s' /\ matches r1 pre /\ k s' g' = Some c /\ extends r1 g g'.

Lemma rep_loop_matches k fuel : forall s g c,
  rep_loop (run r1) greedy k fuel s g = Some c ->
  exists pre s' g',
    s = pre ++ s' /\ matches (Rep greedy r1) pre /\ k s' g' = Some c
    /\ extends r1 g g'.
Proof.
  induction fuel as [|fuel IH]; intros s g c H; cbn [rep_loop] in H.
  - exists [], s, g. repeat split; auto. constructor.
  - assert (Hcases :
      run r1 s g (fun s' g' =>
        if Nat.ltb (length s') (length s)
        then rep_loop (run r1) greedy k fuel s' g' else None) = Some c
      \/ k s g = Some c).
    { destruct greedy; apply or_else_some in H; tauto. }
    destruct Hcases as [Hmore | Hstop].
    + apply body_sound in Hmore.
      destruct Hmore as (pre1 & s1 & g1 & -> & M1 & Hk & E1).
      destruct (Nat.ltb (length s1) (length (pre1 ++ s1))); [|discriminate].
      apply IH in Hk. destruct Hk as (pre2 & s2 & g2 & -> & M2 & Hk & E2).
      exists (pre1 ++ pre2), s2, g2. rewrite app_assoc.
      split; [reflexivity|]. split; [now constructor|]. split; [exact Hk|].
      eapply extends_trans_rep; eauto.
    + exists [], s, g. repeat split; auto. constructor.
Qed.

End Loop.

(** Soundness of the matcher for the texts: what a successful run
    consumes is a text the pattern matches. *)
Lemma run_matches (r : regex) : forall s g k c,
  run r s g k = Some c ->
  exists pre s' g',
    s = pre ++ s' /\ matches r pre /\ k s' g' = Some c /\ extends r g g'.
Proof.
  induction r as [|p|r1 IH1 r2 IH2|r1 IH1 r2 IH2|greedy r1 IH1|i r1 IH1|];
    intros s g k c H; cbn [run] in H.
  - exists [], s, g. repeat split; auto. constructor.
  - destruct s as [|a s]; [discriminate|].
    destruct (p a) eqn:Ep; [|discriminate].
    exists [a], s, g. repeat split; auto. now constructor.
  - apply IH1 in H. destruct H as (pre1 & s1 & g1 & -> & M1 & H & [A1 B1]).
    apply IH2 in H. destruct H as (pre2 & s2 & g2 & -> & M2 & H & [A2 B2]).
    exists (pre1 ++ pre2), s2, g2. rewrite app_assoc.
    split; [reflexivity|]. split; [now constructor|]. split; [exact H|].
    split; intros j Hj.
    + cbn [groups] in Hj. rewrite in_app_iff in Hj. rewrite A2, A1; tauto.
    + auto.
  - apply or_else_some in H. destruct H as [H|H].
    + apply IH1 in H. destruct H as (pre & s' & g' & -> & M & H & [A B]).
      exists pre, s', g'. split; [reflexivity|].
      split; [now apply MatchAltL|]. split; [exact H|]. split; [|exact B].
      intros j Hj. apply A. cbn [groups] in Hj. rewrite in_app_iff in Hj. tauto.
    + apply IH2 in H. destruct H as (pre & s' & g' & -> & M & H & [A B]).
      exists pre, s', g'. split; [reflexivity|].
      split; [now apply MatchAltR|]. split; [exact H|]. split; [|exact B].
      intros j Hj. apply A. cbn [groups] in Hj. rewrite in_app_iff in Hj. tauto.
  - apply (@rep_loop_matches r1 greedy IH1) in H.
    destruct H as (pre & s' & g' & -> & M & H & E). eauto 8.
  - apply IH1 in H. destruct H as (pre & s' & g' & -> & M & H & [A B]).
    rewrite length_app, Nat.add_sub, firstn_app, Nat.sub_diag, firstn_all in H.
    cbn [firstn] in H. rewrite app_nil_r in H.
    exists pre, s', (set_group i pre g'). split; [reflexivity|].
    split; [now constructor|]. split; [exact H|]. split.
    + intros j Hj. simpl in Hj.
      rewrite set_group_other by intuition congruence. apply A. tauto.
    + intros j Hj. apply set_group_keeps. auto.
  - exists [], s, g.
    assert (k s g = Some c).
    { destruct s as [|a [|b s]]; try discriminate; auto.
      destruct (N.eqb a 10); [auto|discriminate]. }
    repeat split; auto. constructor.
Qed.

(** A group followed by a pattern that holds no group of the same
    number: the match object has the text the group matched. *)
Lemma run_group_then (i : nat) (body rest : regex) s g m :
  ~ In i (groups rest) ->
  run (Cat (Grp i body) rest) s g (fun _ g' => Some g') = Some m ->
  exists pre, m i = Some pre /\ matches body pre.
Proof.
  intros Hi H. rewrite run_cat in H. cbn [run] in H.
  apply run_matches in H.
  destruct H as (pre & s' & g' & -> & M & H & _).
  rewrite length_app, Nat.add_sub, firstn_app, Nat.sub_diag, firstn_all in H.
  cbn [firstn] in H. rewrite app_nil_r in H.
  apply run_matches in H. destruct H as (pre2 & s2 & g2 & _ & _ & H & [A _]).
  injection H as <-. exists pre. split; [|exact M].
  rewrite (A i Hi). apply set_group_same.
Qed.

(** The pattern that follows a matched head goes on matching. *)
Lemma run_cat_then (r1 r2 : regex) s g k c :
  run (Cat r1 r2) s g k = Some c ->
  exists s' g', run r2 s' g' k = Some c.
Proof.
  rewrite run_cat. intros H. apply run_matches in H.
  destruct H as (pre & s' & g' & _ & _ & H & _). eauto.
Qed.

Lemma matches_text (p s : str) : matches (text p) s -> s = p.
Proof.
  revert s. induction p as [|a p IH]; intros s H; cbn [text] in H.
  - now inversion H.
  - inversion H as [| |? ? x y Hx Hy| | | | | |]; subst.
    inversion Hx as [|? c Hc| | | | | | |]; subst.
    apply N.eqb_eq in Hc. subst c. cbn [app]. f_equal. apply IH, Hy.
Qed.

Lemma matches_plus_head (p : char -> bool) (s : str) :
  matches (plus (Sym p)) s -> exists d tail, s = d :: tail /\ p d = true.
Proof.
  unfold plus. intros H.
  inversion H as [| |? ? x y Hx Hy| | | | | |]; subst.
  inversion Hx as [|? c Hc| | | | | | |]; subst. cbn [app]. eauto.
Qed.

(** A literal and then one or more characters of a class. *)
Lemma matches_word_then_plus (w : str) (p : char -> bool) (r : regex) s :
  matches (Cat (text w) (Cat (plus (Sym p)) r)) s ->
  exists d tail, s = w ++ d :: tail /\ p d = true.
Proof.
  intros H.
  inversion H as [| |? ? x y Hx Hy| | | | | |]; subst.
  apply matches_text in Hx. subst x.
  inversion Hy as [| |? ? x' y' Hx' Hy'| | | | | |]; subst.
  apply matches_plus_head in Hx'. destruct Hx' as (d & tail & -> & Hd).
  exists d, (tail ++ y'). cbn [app]. auto.
Qed.

Lemma matches_within (P : char -> Prop) (r : regex) (s : str) :
  classes_within P r -> matches r s -> Forall P s.
Proof.
  intros Hc H.
  induction H as [|p c Hp|r1 r2 a b _ IH1 _ IH2|r1 r2 a _ IH|r1 r2 a _ IH
                  |greedy r|greedy r a b _ IH1 _ IH2|i r a _ IH|];
    cbn [classes_within] in Hc.
  - constructor.
  - constructor; [auto | constructor].
  - apply Forall_app. split; tauto.
  - tauto.
  - tauto.
  - constructor.
  - apply Forall_app. split; auto.
  - auto.
  - constructor.
Qed.

End ShapeFacts.

(* ================================================================== *)
(** ** The names and descriptions in a result *)

Module NamesSpec.

Import ReFacts PatternFacts TaskFacts LineFacts ParserFacts ShapeFacts.

Local Open Scope string_scope.
Local Open Scope list_scope.

(** *** Digits, spaces and stripping *)

Lemma in_range_bounds lo hi c :
  in_range lo hi c = true -> (lo <= c <= hi)%N.
Proof.
  unfold in_range. intros H. apply andb_true_iff in H.
  destruct H as [H1 H2]. apply N.leb_le in H1, H2. lia.
Qed.

Lemma is_space_listed (c : char) : is_space c = true -> In c space_chars.
Proof.
  unfold is_space. intros H.
  repeat (apply orb_true_iff in H; destruct H as [H|H]);
    try (apply N.eqb_eq in H; subst c; cbn; tauto);
    apply in_range_bounds in H.
  - assert (c = 9 \/ c = 10 \/ c = 11 \/ c = 12 \/ c = 13)%N as E by lia.
    cbn. intuition (subst; auto 40).
  - assert (c = 28 \/ c = 29 \/ c = 30 \/ c = 31 \/ c = 32)%N as E by lia.
    cbn. intuition (subst; auto 40).
  - assert (c = 8192 \/ c = 8193 \/ c = 8194 \/ c = 8195 \/ c = 8196
            \/ c = 8197 \/ c = 8198 \/ c = 8199 \/ c = 8200 \/ c = 8201
            \/ c = 8202)%N as E by lia.
    cbn. intuition (subst; auto 40).
Qed.

(** No decimal digit is a space. *)
Lemma digit_not_space (c : char) : is_digit c = true -> is_space c = false.
Proof.
  intros Hd. destruct (is_space c) eqn:Hs; [|reflexivity].
  apply is_space_listed in Hs.
  assert (Hall : forallb (fun x => negb (is_digit x)) space_chars = true)
    by (vm_compute; reflexivity).
  rewrite forallb_forall in Hall. specialize (Hall c Hs).
  rewrite Hd in Hall. discriminate.
Qed.

Lemma drop_while_stops (f : char -> bool) (d : char) (r : str) :
  f d = false ->
  forall l, exists x, drop_while f (l ++ d :: r) = x ++ d :: r.
Proof.
  intros Hd. induction l as [|c l IH]; cbn [app drop_while].
  - rewrite Hd. now exists [].
  - destruct (f c); [exact IH|]. now exists (c :: l).
Qed.

(** Stripping keeps a text from its first character to any character
    that is not a space. *)
Lemma strip_keeps (a : char) (u : str) (d : char) (tail : str) :
  is_space a = false -> is_space d = false ->
  exists tail', strip (a :: u ++ d :: tail) = a :: u ++ d :: tail'.
Proof.
  intros Ha Hd. unfold strip. cbn [drop_while]. rewrite Ha.
  change (a :: u ++ d :: tail) with ((a :: u) ++ d :: tail).
  rewrite rev_app_distr. cbn [rev]. rewrite <- app_assoc. cbn [app].
  destruct (drop_while_stops is_space d (rev u ++ [a]) Hd (rev tail))
    as [x Hx].
  rewrite Hx, rev_app_distr. cbn [rev]. rewrite rev_app_distr, rev_involutive.
  cbn [rev app]. rewrite <- !app_assoc. cbn [app]. now exists (rev x).
Qed.

(** *** What the groups hold *)

Lemma epic_group line m :
  epic_match line = Some m ->
  exists d tail, m 1 = Some (lit "Epic " ++ d :: tail) /\ is_digit d = true.
Proof.
  unfold epic_match, re_match, epic_re. intros H.
  apply run_cat_then in H. destruct H as (s' & g' & H).
  apply run_group_then in H; [|intros []].
  destruct H as (pre & Hm & M).
  apply matches_word_then_plus in M. destruct M as (d & tail & -> & Hd).
  eauto.
Qed.

Lemma sprint_group line m :
  sprint_match line = Some m ->
  exists d tail, m 1 = Some (lit "Sprint " ++ d :: tail) /\ is_digit d = true.
Proof.
  unfold sprint_match, re_match, sprint_re. intros H.
  apply run_cat_then in H. destruct H as (s' & g' & H).
  apply run_group_then in H; [|cbn; tauto].
  destruct H as (pre & Hm & M).
  apply matches_word_then_plus in M. destruct M as (d & tail & -> & Hd).
  eauto.
Qed.

Lemma microversion_group line m :
  microversion_match line = Some m ->
  exists d tail, m 1 = Some (d :: tail) /\ is_digit d = true.
Proof.
  unfold microversion_match, re_match, microversion_re. intros H.
  apply run_cat_then in H. destruct H as (s' & g' & H).
  apply run_group_then in H; [|cbn; intuition discriminate].
  destruct H as (pre & Hm & M).
  inversion M as [| |? ? x y Hx Hy| | | | | |]; subst.
  apply matches_plus_head in Hx. destruct Hx as (d & tail & -> & Hd).
  exists d, (tail ++ y). auto.
Qed.

Lemma task_group line m :
  task_match line = Some m ->
  exists ident, m 2 = Some ident /\ plain_identifier ident.
Proof.
  unfold task_match, re_match, task_re. intros H.
  apply run_cat_then in H. destruct H as (s1 & g1 & H).
  apply run_cat_then in H. destruct H as (s2 & g2 & H).
  apply run_cat_then in H. destruct H as (s3 & g3 & H).
  apply run_group_then in H; [|cbn; intuition discriminate].
  destruct H as (ident & Hm & M). exists ident. split; [exact Hm|]. split.
  - inversion M as [| |? ? x y Hx Hy| | | | | |]; subst.
    apply matches_plus_head in Hx. destruct Hx as (u & tail & -> & Hu).
    exists u, (tail ++ y). auto.
  - refine (@matches_within (fun c => id_char c = true) _ _ _ M).
    unfold id_char. cbn [classes_within plus upper digit star txt text lit chr].
    repeat split; try (intros c Hc); try tauto; rewrite ?Hc, ?orb_true_r; auto.
    apply N.eqb_eq in Hc. subst c. reflexivity.
Qed.

(** *** Titles and identifiers of single lines *)

Lemma header_title_numbered line t :
  header_title line = Some t ->
  numbered "Epic " t \/ numbered "Sprint " t.
Proof.
  unfold header_title, header_match. intros H.
  destruct (epic_match line) as [m|] eqn:E; cbn [or_else] in H.
  - injection H as <-. left.
    destruct (@epic_group line m E) as (d & tail & Hm & Hd).
    unfold group. rewrite Hm.
    destruct (@strip_keeps 69%N (lit "pic ") d tail eq_refl
                           (digit_not_space d Hd)) as [tail' Hs].
    exists d, tail'. split; [exact Hs | exact Hd].
  - destruct (sprint_match line) as [m|] eqn:E'; [|discriminate].
    injection H as <-. right.
    destruct (@sprint_group line m E') as (d & tail & Hm & Hd).
    unfold group. rewrite Hm.
    destruct (@strip_keeps 83%N (lit "print ") d tail eq_refl
                           (digit_not_space d Hd)) as [tail' Hs].
    exists d, tail'. split; [exact Hs | exact Hd].
Qed.

Lemma microversion_title_numbered line t :
  microversion_title line = Some t -> numbered "v" t.
Proof.
  unfold microversion_title. intros H.
  destruct (microversion_match line) as [m|] eqn:E; [|discriminate].
  injection H as <-.
  destruct (@microversion_group line m E) as (d & tail & Hm & Hd).
  unfold group at 1. rewrite Hm.
  exists d, (tail ++ lit " - " ++ strip (group m 2)). split; [|exact Hd].
  cbn [app]. reflexivity.
Qed.

Lemma task_identifier_plain line m :
  task_match line = Some m -> plain_identifier (task_id (task_of_match m)).
Proof.
  intros H. destruct (@task_group line m H) as (ident & Hm & Hp).
  cbn [task_of_match task_id]. unfold group. now rewrite Hm.
Qed.

(** *** Markers and descriptions *)

Lemma starts_with_app_r (m a b : str) :
  starts_with m a = true -> starts_with m (a ++ b) = true.
Proof.
  revert a. induction m as [|c m IH]; intros a H; [reflexivity|].
  destruct a as [|x a]; [discriminate|]. cbn [app starts_with] in *.
  apply andb_true_iff in H. destruct H as [H1 H2].
  rewrite H1. cbn [andb]. apply IH, H2.
Qed.

Lemma occurs_app_r (m a b : str) :
  occurs m a = true -> occurs m (a ++ b) = true.
Proof.
  induction a as [|x a IH]; intros H.
  - cbn [occurs] in H. rewrite orb_false_r in H.
    destruct m; [|discriminate]. destruct b; reflexivity.
  - cbn [app occurs] in *. apply orb_true_iff in H. destruct H as [H|H].
    + pose proof (starts_with_app_r m (x :: a) b H) as H'.
      cbn [app] in H'. now rewrite H'.
    + rewrite (IH H). apply orb_true_r.
Qed.

Lemma occurs_app_l (m a b : str) :
  occurs m b = true -> occurs m (a ++ b) = true.
Proof.
  intros H. induction a as [|x a IH]; [exact H|].
  cbn [app occurs]. rewrite IH. apply orb_true_r.
Qed.

Lemma drop_while_suffix (f : char -> bool) (s : str) :
  exists a, s = a ++ drop_while f s.
Proof.
  induction s as [|c s IH]; [now exists []|]. cbn [drop_while].
  destruct (f c); [|now exists []].
  destruct IH as [a Ha]. exists (c :: a). cbn [app]. now rewrite <- Ha.
Qed.

(** A stripped text is a part of the text. *)
Lemma strip_infix (s : str) : exists a b, s = a ++ strip s ++ b.
Proof.
  unfold strip.
  destruct (drop_while_suffix is_space s) as [a Ha].
  destruct (drop_while_suffix is_space (rev (drop_while is_space s)))
    as [x Hx].
  exists a, (rev x). rewrite <- rev_app_distr, <- Hx, rev_involutive.
  exact Ha.
Qed.

Lemma occurs_strip (m s : str) :
  occurs m (strip s) = true -> occurs m s = true.
Proof.
  intros H. destruct (strip_infix s) as (a & b & Hs). rewrite Hs.
  apply occurs_app_l, occurs_app_r, H.
Qed.

Lemma cut_at_prefix (markers : list str) (s : str) :
  exists b, s = cut_at markers s ++ b.
Proof.
  induction s as [|c s IH]; [now exists []|]. cbn [cut_at].
  destruct (existsb (fun m => starts_with m (c :: s)) markers).
  - now exists (c :: s).
  - destruct IH as [b Hb]. exists b. cbn [app]. now rewrite <- Hb.
Qed.

(** No marker begins anywhere in a text cut at the first marker. *)
Lemma cut_at_no_marker (markers : list str) (m : str) :
  In m markers -> m <> [] ->
  forall s, occurs m (cut_at markers s) = false.
Proof.
  intros Hin Hne. induction s as [|c s IH].
  - cbn [cut_at occurs]. destruct m; [contradiction|reflexivity].
  - cbn [cut_at].
    destruct (existsb (fun x => starts_with x (c :: s)) markers) eqn:E.
    + cbn [occurs]. destruct m; [contradiction|reflexivity].
    + cbn [occurs]. rewrite IH, orb_false_r.
      destruct (starts_with m (c :: cut_at markers s)) eqn:Es; [|reflexivity].
      destruct (cut_at_prefix markers s) as [b Hb].
      apply (starts_with_app_r m (c :: cut_at markers s) b) in Es.
      cbn [app] in Es. rewrite <- Hb in Es.
      assert (existsb (fun x => starts_with x (c :: s)) markers = true).
      { apply existsb_exists. eauto. }
      congruence.
Qed.

Lemma description_has_no_marker line m :
  no_line_feed line -> task_match line = Some m ->
  existsb (fun mk => occurs mk (task_description (task_of_match m)))
          effort_markers = false.
Proof.
  intros Hnl H.
  destruct (@task_match_shape line m Hnl H)
    as (box & ident & rest & _ & _ & _ & _ & H3).
  cbn [task_of_match task_description]. unfold group. rewrite H3.
  destruct (existsb _ effort_markers) eqn:E; [|reflexivity].
  apply existsb_exists in E. destruct E as (mk & Hin & Ho).
  apply occurs_strip in Ho.
  rewrite (@cut_at_no_marker effort_markers mk Hin) in Ho; [discriminate|].
  intros ->. cbn in Hin. intuition discriminate.
Qed.

(** *** From the lines to the result *)

Section Invariant.

Variables title_ok mv_title_ok : str -> Prop.
Variable task_ok : Task -> Prop.
Variable lines : list str.

Hypothesis titles : forall l t,
  In l lines -> header_title l = Some t -> title_ok t.
Hypothesis mv_titles : forall l t,
  In l lines -> microversion_title l = Some t -> mv_title_ok t.
Hypothesis tasks : forall l m,
  In l lines -> task_match l = Some m -> task_ok (task_of_match m).

#[local] Abbreviation microversion_ok :=
  (microversion_ok mv_title_ok task_ok).
#[local] Abbreviation entry_ok := (entry_ok title_ok mv_title_ok task_ok).
#[local] Abbreviation state_ok := (state_ok title_ok mv_title_ok task_ok).

Lemma append_microversion_ok sp mv :
  entry_ok sp -> microversion_ok mv -> entry_ok (append_microversion sp mv).
Proof.
  intros [Ht Hm] Hmv. split; [exact Ht|]. cbn [append_microversion sprint_microversions].
  apply Forall_app. split; [exact Hm|]. now constructor.
Qed.

Lemma state_ok_step st l :
  In l lines -> state_ok st -> state_ok (step st l).
Proof.
  intros Hin (Hc & Hs & Hm).
  destruct (header_title l) as [t|] eqn:Hh.
  - rewrite (@ParserMore.header_title_step st l t Hh).
    split; [|split].
    + cbn [open_sprint sprints]. unfold sprints_with_current.
      destruct (current_sprint st) as [sp|] eqn:Es; [|exact Hc].
      apply Forall_app. split; [exact Hc|]. constructor; [|constructor]. auto.
    + cbn [open_sprint current_sprint]. intros sp E. injection E as <-.
      split; [eauto | constructor].
    + cbn [open_sprint current_microversion]. discriminate.
  - destruct (@ParserMore.non_header_step st l Hh)
      as [[-> _]|[(sp & m & Es & Em & ->)|(mv & m & Emv & Em & ->)]].
    + exact (conj Hc (conj Hs Hm)).
    + split; [exact Hc|]. split.
      * cbn [open_microversion current_sprint]. intros sp' E. injection E as <-.
        destruct (current_microversion st) as [mv|] eqn:Emv; [|auto].
        apply append_microversion_ok; auto.
      * cbn [open_microversion current_microversion]. intros mv' E.
        injection E as <-. split; [|constructor]. cbn [mv_title].
        apply (mv_titles l); [exact Hin|].
        apply ParserMore.microversion_title_match, Em.
    + split; [exact Hc|]. split; [exact Hs|].
      cbn [add_task current_microversion]. intros mv' E. injection E as <-.
      destruct (Hm mv Emv) as [Ht Hk]. split; [exact Ht|].
      cbn [append_task mv_tasks]. apply Forall_app. split; [exact Hk|].
      constructor; [|constructor]. eapply tasks; eauto.
Qed.

Lemma state_ok_scan (ls : list str) : forall st,
  incl ls lines -> state_ok st -> state_ok (scan_from st ls).
Proof.
  induction ls as [|l ls IH]; intros st Hincl Hst; [exact Hst|].
  rewrite scan_from_cons. apply IH.
  - intros x Hx. apply Hincl. now right.
  - apply state_ok_step; [apply Hincl; now left | exact Hst].
Qed.

Lemma finish_ok st : state_ok st -> Forall entry_ok (finish st).
Proof.
  intros (Hc & Hs & Hm). unfold finish.
  destruct (current_microversion st) as [mv|] eqn:Emv;
    destruct (current_sprint st) as [sp|] eqn:Es; try exact Hc.
  - apply Forall_app. split; [exact Hc|]. constructor; [|constructor].
    apply append_microversion_ok; auto.
  - apply Forall_app. split; [exact Hc|]. constructor; [|constructor]. auto.
Qed.

Lemma parse_lines_ok : entries_satisfy title_ok mv_title_ok task_ok (parse_lines lines).
Proof.
  unfold entries_satisfy, parse_lines, scan.
  change (fold_left step lines initial) with (scan_from initial lines).
  apply (finish_ok (st := scan_from initial lines)).
  apply state_ok_scan; [apply incl_refl|].
  split; [constructor|]. split; discriminate.
Qed.

End Invariant.

(** X17: in the result of any document, the title of every entry is
    the word Epic or Sprint, a space and a decimal digit followed by the
    rest of the title, and the title of every microversion is the
    letter v and a decimal digit followed by the rest: stripping never
    eats into the number, and no title is empty. *)
Theorem titles_are_numbered (md : str) :
  entries_satisfy
    (fun t => numbered "Epic " t \/ numbered "Sprint " t)
    (fun t => numbered "v" t)
    (fun _ => True)
    (parse_markdown md).
Proof.
  apply parse_lines_ok.
  - intros l t _ H. apply (header_title_numbered l H).
  - intros l t _ H. apply (microversion_title_numbered l H).
  - auto.
Qed.

(** X18: in the result of any document, the identifier of every task
    begins with an upper-case letter and consists of upper-case
    letters, decimal digits and dots only; in particular it is not
    empty and holds no character that is markup in the page, where it
    is written without escaping. *)
Theorem task_identifiers_are_plain (md : str) :
  entries_satisfy
    (fun _ => True) (fun _ => True)
    (fun task => plain_identifier (task_id task))
    (parse_markdown md).
Proof.
  apply parse_lines_ok; auto.
  intros l m _ H. apply (task_identifier_plain l H).
Qed.

(** X19: in the result of any document, no description of a task holds
    one of the markers " - **Effort", "[Effort", "(Effort",
    "Dependencies", "Assignee", "Granular Steps", "Completion Notes":
    the description ends before the first of them. *)
Theorem descriptions_hold_no_marker (md : str) :
  entries_satisfy
    (fun _ => True) (fun _ => True)
    (fun task =>
       existsb (fun marker => occurs marker (task_description task))
               effort_markers = false)
    (parse_markdown md).
Proof.
  apply parse_lines_ok; auto.
  intros l m Hin H. apply (description_has_no_marker (line := l)); [|exact H].
  apply (splitlines_no_line_feed md), Hin.
Qed.

End NamesSpec.
